(** * Real-time transcription client: capture, reconciliation, comparison

  A shallow embedding of the client-side core of the transcription
  benchmark front end:

  - [frontend/public/audio-processor.js]: the audio worklet that buffers
    float samples and converts full buffers to 16-bit PCM;
  - [frontend/app/page.tsx]: the WebSocket message handler that merges
    partial and final transcript segments and records metrics, and the
    stop-of-recording routine;
  - [frontend/components/ComparisonView.tsx]: the two-session selection
    window and the per-session metric averages.

  JavaScript numbers are IEEE 754 binary64 values, so they are embedded
  as Rocq's primitive floats; typed-array stores, [Math.min]/[Math.max]
  and the integer conversion of [Int16Array] are written out after the
  ECMAScript definitions. *)

From Stdlib Require Import ZArith QArith Qpower Floats.
From stdpp Require Import list strings.

Local Open Scope Z_scope.
#[local] Set Warnings "-inexact-float".

(** ** JavaScript number primitives *)

Module JS.

(** [Math.min(a, b)]: NaN if either argument is NaN, otherwise the
    smaller one, where -0 counts as smaller than +0. *)
Definition Math_min (a b : float) : float :=
  if is_nan a || is_nan b then nan
  else if PrimFloat.ltb a b then a
  else if PrimFloat.ltb b a then b
  else if get_sign a then a else b.

(** [Math.max(a, b)]: NaN if either argument is NaN, otherwise the
    larger one, where +0 counts as larger than -0. *)
Definition Math_max (a b : float) : float :=
  if is_nan a || is_nan b then nan
  else if PrimFloat.ltb a b then b
  else if PrimFloat.ltb b a then a
  else if get_sign a then b else a.

(** The mathematical integer obtained from a number by dropping its
    fraction (rounding toward zero); NaN, the zeros and the infinities
    give 0, as in the integer conversions of ECMAScript. *)
Definition truncate (f : float) : Z :=
  match Prim2SF f with
  | S754_finite s m e =>
      let a := if 0 <=? e then Z.pos m * 2 ^ e else Z.pos m / 2 ^ (- e) in
      if s then - a else a
  | _ => 0
  end.

(** [ToInt16]: the conversion applied when a number is stored into an
    [Int16Array] element: truncate, reduce modulo 2^16, read as signed. *)
Definition ToInt16 (f : float) : Z :=
  let int16bit := truncate f mod 65536 in
  if 32768 <=? int16bit then int16bit - 65536 else int16bit.

(** A JavaScript array length as a number. *)
Definition of_length (n : nat) : float :=
  PrimFloat.of_uint63 (Uint63.of_Z (Z.of_nat n)).

End JS.

(** ** audio-processor.js *)

Module AudioProcessor.
Import JS.

(** The message handed to the main thread through [port.postMessage]. *)
Record AudioMessage := {
  msg_type : string;
  msg_data : list Z;          (* the Int16Array behind [pcmData.buffer] *)
}.

(** Fields of [AudioCaptureProcessor]. [buffer] is a [Float32Array]; the
    samples stored into it come from another [Float32Array], so the store
    does not round. *)
Record AudioCaptureProcessor := {
  bufferSize : nat;
  buffer : list float;
  bufferIndex : nat;
}.

(** [new Float32Array(n)]: n elements, all +0. *)
Definition new_Float32Array (n : nat) : list float := replicate n zero.

Definition constructor : AudioCaptureProcessor :=
  {| bufferSize := 4096;
     buffer := new_Float32Array 4096;
     bufferIndex := 0 |}.

(** Body of the loop of [floatTo16BitPCM] for one element. *)
Definition clamp (x : float) : float := Math_max (-1)%float (Math_min 1%float x).

Definition scaled (x : float) : float :=
  let s := clamp x in
  if PrimFloat.ltb s 0%float then PrimFloat.mul s 32768%float   (* 0x8000 *)
  else PrimFloat.mul s 32767%float.                              (* 0x7fff *)

Definition pcm_sample (x : float) : Z := ToInt16 (scaled x).

(** [floatTo16BitPCM]: a fresh [Int16Array] of the same length whose
    element i is computed from element i of the argument. *)
Definition floatTo16BitPCM (float32Array : list float) : list Z :=
  map pcm_sample float32Array.

(** One iteration of the loop of [process]: store the sample at
    [bufferIndex] (a store past the end of a typed array is dropped),
    advance the index, and post and reset when the buffer is full. *)
Definition push_sample (st : AudioCaptureProcessor) (x : float)
  : AudioCaptureProcessor * list AudioMessage :=
  let buffer' := <[bufferIndex st := x]> (buffer st) in
  let bufferIndex' := S (bufferIndex st) in
  if (bufferSize st <=? bufferIndex')%nat then
    let pcmData := floatTo16BitPCM buffer' in
    ({| bufferSize := bufferSize st;
        buffer := new_Float32Array (bufferSize st);
        bufferIndex := 0%nat |},
     [ {| msg_type := "audio"; msg_data := pcmData |} ])
  else
    ({| bufferSize := bufferSize st;
        buffer := buffer';
        bufferIndex := bufferIndex' |}, []).

(** The [for] loop over [inputChannel], collecting the posted messages. *)
Fixpoint process_channel (st : AudioCaptureProcessor) (inputChannel : list float)
  : AudioCaptureProcessor * list AudioMessage :=
  match inputChannel with
  | [] => (st, [])
  | x :: rest =>
      let '(st1, out1) := push_sample st x in
      let '(st2, out2) := process_channel st1 rest in
      (st2, out1 ++ out2)
  end.

(** [process(inputs, outputs, parameters)]. [inputs] is the list of the
    node's inputs, each a list of channels. Reading [inputs[0].length]
    when there is no input at all raises a TypeError ([None]); otherwise
    the result is the new state, the posted messages and the returned
    keep-alive flag. [outputs] and [parameters] are not used. *)
Definition process (st : AudioCaptureProcessor) (inputs : list (list (list float)))
  : option (AudioCaptureProcessor * list AudioMessage * bool) :=
  match inputs with
  | [] => None
  | input :: _ =>
      match input with
      | [] => Some (st, [], true)
      | inputChannel :: _ =>
          let '(st', out) := process_channel st inputChannel in
          Some (st', out, true)
      end
  end.

(** A run of the worklet: one [process] call per rendering quantum. *)
Fixpoint run (st : AudioCaptureProcessor) (callbacks : list (list (list (list float))))
  : option (AudioCaptureProcessor * list AudioMessage) :=
  match callbacks with
  | [] => Some (st, [])
  | inputs :: rest =>
      match process st inputs with
      | None => None
      | Some (st1, out1, _) =>
          match run st1 rest with
          | None => None
          | Some (st2, out2) => Some (st2, out1 ++ out2)
          end
      end
  end.

(** The samples a run consumes: channel 0 of input 0 of every callback. *)
Definition callback_samples (inputs : list (list (list float))) : list float :=
  match inputs with
  | (inputChannel :: _) :: _ => inputChannel
  | _ => []
  end.

Definition total_samples (callbacks : list (list (list (list float)))) : list float :=
  concat (map callback_samples callbacks).

(** *** Vocabulary for the statements about the encoder *)

(** The accumulator holds the pending samples [p]: they fill the front of
    the buffer, the rest of the buffer is still zero, and there is room for
    at least one more sample. *)
Definition holds (st : AudioCaptureProcessor) (p : list float) : Prop :=
  bufferIndex st = length p ∧
  buffer st = p ++ replicate (bufferSize st - length p) zero ∧
  (length p < bufferSize st)%nat.

(** The messages posted for a sequence of full buffers. *)
Definition audio_messages (fs : list (list float)) : list AudioMessage :=
  (λ f, {| msg_type := "audio"; msg_data := floatTo16BitPCM f |}) <$> fs.

(** A callback that hands over one channel with the given samples, and one
    whose input has no channel. *)
Definition block (samples : list float) : list (list (list float)) := [[samples]].

Definition no_channel : list (list (list float)) := [[]].

End AudioProcessor.

(** ** app/page.tsx *)

Module Page.

Inductive SegmentType := partial | final.

Record TranscriptSegment := {
  text : string;
  type : SegmentType;
  timestamp : Z;
}.

Record Metrics := {
  cpu_percent : float;
  memory_mb : float;
  avg_chunk_time_ms : float;
  rtf : float;
  processing_time_ms : option float;
}.

(** [model] is whatever the backend last reported; [None] stands for
    [undefined] (a message without a [model] field). *)
Record SessionData := {
  model : option string;
  session_timestamp : Z;
  duration : Z;
  metrics : list Metrics;
  transcript : string;
}.

(** Handles held in the refs; only their presence and, for the media
    stream, the number of tracks matter to the code. *)
Inductive WebSocket := the_socket.
Inductive AudioWorkletNode := the_worklet_node.
Inductive AudioContext := the_audio_context.
Record MediaStream := { tracks : nat }.

(** The state of the [Home] component: its [useState] cells and refs. *)
Record Home := {
  isRecording : bool;
  st_transcript : list TranscriptSegment;
  currentModel : option string;
  st_metrics : option Metrics;
  showComparison : bool;
  status : string;
  wsRef : option WebSocket;
  audioContextRef : option AudioContext;
  workletNodeRef : option AudioWorkletNode;
  streamRef : option MediaStream;
  sessionStartRef : Z;
  metricsHistoryRef : list Metrics;
}.

Definition initial : Home :=
  {| isRecording := false; st_transcript := []; currentModel := Some "vosk";
     st_metrics := None; showComparison := false; status := "Disconnected";
     wsRef := None; audioContextRef := None; workletNodeRef := None;
     streamRef := None; sessionStartRef := 0; metricsHistoryRef := [] |}.

(** State setters. *)
Definition setTranscript (f : list TranscriptSegment -> list TranscriptSegment)
    (st : Home) : Home :=
  {| isRecording := isRecording st; st_transcript := f (st_transcript st);
     currentModel := currentModel st; st_metrics := st_metrics st;
     showComparison := showComparison st; status := status st;
     wsRef := wsRef st; audioContextRef := audioContextRef st;
     workletNodeRef := workletNodeRef st; streamRef := streamRef st;
     sessionStartRef := sessionStartRef st;
     metricsHistoryRef := metricsHistoryRef st |}.

Definition setCurrentModel (m : option string) (st : Home) : Home :=
  {| isRecording := isRecording st; st_transcript := st_transcript st;
     currentModel := m; st_metrics := st_metrics st;
     showComparison := showComparison st; status := status st;
     wsRef := wsRef st; audioContextRef := audioContextRef st;
     workletNodeRef := workletNodeRef st; streamRef := streamRef st;
     sessionStartRef := sessionStartRef st;
     metricsHistoryRef := metricsHistoryRef st |}.

Definition setMetrics (m : option Metrics) (st : Home) : Home :=
  {| isRecording := isRecording st; st_transcript := st_transcript st;
     currentModel := currentModel st; st_metrics := m;
     showComparison := showComparison st; status := status st;
     wsRef := wsRef st; audioContextRef := audioContextRef st;
     workletNodeRef := workletNodeRef st; streamRef := streamRef st;
     sessionStartRef := sessionStartRef st;
     metricsHistoryRef := metricsHistoryRef st |}.

Definition setStatus (s : string) (st : Home) : Home :=
  {| isRecording := isRecording st; st_transcript := st_transcript st;
     currentModel := currentModel st; st_metrics := st_metrics st;
     showComparison := showComparison st; status := s;
     wsRef := wsRef st; audioContextRef := audioContextRef st;
     workletNodeRef := workletNodeRef st; streamRef := streamRef st;
     sessionStartRef := sessionStartRef st;
     metricsHistoryRef := metricsHistoryRef st |}.

Definition setIsRecording (b : bool) (st : Home) : Home :=
  {| isRecording := b; st_transcript := st_transcript st;
     currentModel := currentModel st; st_metrics := st_metrics st;
     showComparison := showComparison st; status := status st;
     wsRef := wsRef st; audioContextRef := audioContextRef st;
     workletNodeRef := workletNodeRef st; streamRef := streamRef st;
     sessionStartRef := sessionStartRef st;
     metricsHistoryRef := metricsHistoryRef st |}.

(** [metricsHistoryRef.current.push(m)] and [metricsHistoryRef.current = l]. *)
Definition metricsHistory_push (m : Metrics) (st : Home) : Home :=
  {| isRecording := isRecording st; st_transcript := st_transcript st;
     currentModel := currentModel st; st_metrics := st_metrics st;
     showComparison := showComparison st; status := status st;
     wsRef := wsRef st; audioContextRef := audioContextRef st;
     workletNodeRef := workletNodeRef st; streamRef := streamRef st;
     sessionStartRef := sessionStartRef st;
     metricsHistoryRef := metricsHistoryRef st ++ [m] |}.

Definition set_refs (ws : option WebSocket) (ctx : option AudioContext)
    (node : option AudioWorkletNode) (stream : option MediaStream)
    (st : Home) : Home :=
  {| isRecording := isRecording st; st_transcript := st_transcript st;
     currentModel := currentModel st; st_metrics := st_metrics st;
     showComparison := showComparison st; status := status st;
     wsRef := ws; audioContextRef := ctx;
     workletNodeRef := node; streamRef := stream;
     sessionStartRef := sessionStartRef st;
     metricsHistoryRef := metricsHistoryRef st |}.

Definition set_session (start : Z) (history : list Metrics) (st : Home) : Home :=
  {| isRecording := isRecording st; st_transcript := st_transcript st;
     currentModel := currentModel st; st_metrics := st_metrics st;
     showComparison := showComparison st; status := status st;
     wsRef := wsRef st; audioContextRef := audioContextRef st;
     workletNodeRef := workletNodeRef st; streamRef := streamRef st;
     sessionStartRef := start;
     metricsHistoryRef := history |}.

(** The object [JSON.parse(event.data)] yields, read through the fields
    the handler uses. A field that is absent (or [null]) is [None]. *)
Record Data := {
  data_type : option string;
  data_text : option string;
  data_model : option string;
  data_message : option string;
  data_metrics : option Metrics;
}.

(** [data.type === s] *)
Definition type_is (data : Data) (s : string) : bool :=
  bool_decide (data_type data = Some s).

(** Truthiness of [data.text]: present and not the empty string. *)
Definition truthy (s : option string) : bool :=
  match s with
  | Some s => negb (bool_decide (s = ""))
  | None => false
  end.

(** A value inside a template literal. *)
Definition interpolate (s : option string) : string :=
  match s with Some s => s | None => "undefined" end.

Definition is_final (s : TranscriptSegment) : bool :=
  match type s with final => true | partial => false end.

(** The updater passed to [setTranscript] in [ws.onmessage]. It is only
    reached when [data.type] is ['partial'] or ['final']. *)
Definition add_segment (data : Data) (now : Z) (prev : list TranscriptSegment)
  : list TranscriptSegment :=
  let newSegment :=
    {| text := default "" (data_text data);
       type := if type_is data "partial" then partial else final;
       timestamp := now |} in
  if type_is data "partial" then
    let filtered := filter (λ s, is_final s = true) prev in
    filtered ++ [newSegment]
  else
    filter (λ s, is_final s = true) prev ++ [newSegment].

(** [ws.onmessage], with [now] the value of [Date.now()]. *)
Definition onmessage (data : Data) (now : Z) (st : Home) : Home :=
  if type_is data "connected" then
    setCurrentModel (data_model data) st
  else if type_is data "partial" || type_is data "final" then
    let st1 :=
      if truthy (data_text data) then setTranscript (add_segment data now) st
      else st in
    match data_metrics data with
    | Some m => metricsHistory_push m (setMetrics (Some m) st1)
    | None => st1
    end
  else if type_is data "model_switched" then
    setStatus ("Switched to " +:+ interpolate (data_model data))
              (setCurrentModel (data_model data) st)
  else if type_is data "error" then
    setStatus ("Error: " +:+ interpolate (data_message data)) st
  else st.

(** How far [initializeAudio] got. *)
Inductive AudioInit :=
| audio_ready (stream : MediaStream)
| getUserMedia_failed
| addModule_failed (stream : MediaStream).

Definition initializeAudio (r : AudioInit) (st : Home) : Home * bool :=
  match r with
  | audio_ready stream =>
      (set_refs (wsRef st) (Some the_audio_context) (Some the_worklet_node)
                (Some stream) st, true)
  | getUserMedia_failed =>
      (setStatus "Audio initialization failed" st, false)
  | addModule_failed stream =>
      (setStatus "Audio initialization failed"
         (set_refs (wsRef st) (Some the_audio_context) (workletNodeRef st)
                   (Some stream) st), false)
  end.

Definition connectWebSocket (st : Home) : Home :=
  set_refs (Some the_socket) (audioContextRef st) (workletNodeRef st)
           (streamRef st) st.

Definition startRecording (r : AudioInit) (now : Z) (st : Home) : Home :=
  let '(st1, audioReady) := initializeAudio r st in
  if negb audioReady then st1
  else
    let st2 := connectWebSocket st1 in
    let st3 := setIsRecording true st2 in
    let st4 := set_session now [] st3 in
    setTranscript (λ _, []) st4.

(** [resetTranscript]; the control message it sends does not touch the
    local state. *)
Definition resetTranscript (st : Home) : Home := setTranscript (λ _, []) st.

(** What can happen to the component between renders. *)
Inductive Event :=
| Start (r : AudioInit) (now : Z)
| Message (data : Data) (now : Z)
| Reset
| SocketOpen
| SocketError
| SocketClose.

Definition handle (st : Home) (e : Event) : Home :=
  match e with
  | Start r now => startRecording r now st
  | Message data now => onmessage data now st
  | Reset => resetTranscript st
  | SocketOpen => setStatus "Connected" st
  | SocketError => setStatus "Connection error" st
  | SocketClose => setStatus "Disconnected" st
  end.

Definition handle_all (st : Home) (es : list Event) : Home :=
  foldl handle st es.

(** *** stopRecording

    The routine calls into the browser: [localStorage], [JSON], the socket,
    the worklet node, the audio context and the tracks. An exception is not
    caught anywhere in [stopRecording], so a call that raises ends the
    routine. The calls are modelled in a small state-and-exception monad
    over the world below, in which a function [raises] says which calls
    raise. The storage calls can raise (storage full or denied, stored text
    that does not parse). The teardown calls, as made here, do not:
    [ws.close()], [disconnect()] and [track.stop()] return, and a failing
    [AudioContext.close()] rejects a promise that nobody awaits. Letting
    [raises] range over all calls therefore covers more runs than the
    program has; [storage_only] below singles out the ones it has. *)

Inductive Call :=
| localStorage_getItem
| JSON_parse
| localStorage_setItem
| WebSocket_close
| WorkletNode_disconnect
| AudioContext_close
| Track_stop (i : nat).

#[export] Instance Call_eq_dec : EqDecision Call.
Proof. solve_decision. Defined.

(** [stored] is the list persisted under ['transcription_sessions']
    ([None]: the key is absent); [trace] lists the calls that returned;
    [raises] tells which calls raise. *)
Record World := {
  home : Home;
  stored : option (list SessionData);
  trace : list Call;
}.

Inductive Outcome (A : Type) :=
| Returned (a : A)
| Raised (c : Call).
Arguments Returned {A} a.
Arguments Raised {A} c.

Definition Eff (A : Type) : Type := (Call -> bool) -> World -> World * Outcome A.

Definition ret {A} (a : A) : Eff A := λ _ w, (w, Returned a).

Definition bind {A B} (m : Eff A) (k : A -> Eff B) : Eff B :=
  λ raises w,
    match m raises w with
    | (w1, Returned a) => k a raises w1
    | (w1, Raised c) => (w1, Raised c)
    end.

Notation "'do' x <- m ; k" := (bind m (λ x, k))
  (at level 10, x name, m at level 100, k at level 200).
Notation "m ;;; k" := (bind m (λ _, k))
  (at level 100, k at level 200, right associativity).

(** A browser call: raises if the oracle says so, otherwise is logged. *)
Definition call (c : Call) : Eff unit :=
  λ raises w,
    if raises c then (w, Raised c)
    else ({| home := home w; stored := stored w; trace := trace w ++ [c] |},
          Returned tt).

Definition get_home : Eff Home := λ _ w, (w, Returned (home w)).

Definition modify_home (f : Home -> Home) : Eff unit :=
  λ _ w, ({| home := f (home w); stored := stored w; trace := trace w |},
          Returned tt).

Definition get_stored : Eff (option (list SessionData)) :=
  λ _ w, (w, Returned (stored w)).

Definition put_stored (l : list SessionData) : Eff unit :=
  λ _ w, ({| home := home w; stored := Some l; trace := trace w |},
          Returned tt).

(** [tracks.forEach(track => track.stop())] for tracks [i, i+1, ...]. *)
Fixpoint stop_tracks (i n : nat) : Eff unit :=
  match n with
  | O => ret tt
  | S n' => call (Track_stop i) ;;; stop_tracks (S i) n'
  end.

(** [transcript.map(s => s.text).join(' ')] *)
Definition join_texts (transcript : list TranscriptSegment) : string :=
  String.concat " " (map text transcript).

Definition make_sessionData (st : Home) (now : Z) : SessionData :=
  {| model := currentModel st;
     session_timestamp := sessionStartRef st;
     duration := now - sessionStartRef st;
     metrics := metricsHistoryRef st;
     transcript := join_texts (st_transcript st) |}.

(** [stopRecording]. The state cells [currentModel] and [transcript] are
    those of the render whose closure runs, hence read once at entry; each
    ref is read where the code reads its [.current]. *)
Definition stopRecording (now : Z) : Eff unit :=
  do st <- get_home;
  (* Save session data *)
  let sessionData := make_sessionData st now in
  call localStorage_getItem ;;;
  do item <- get_stored;
  call JSON_parse ;;;
  let sessions := default [] item in
  let sessions := sessions ++ [sessionData] in
  call localStorage_setItem ;;;
  put_stored sessions ;;;
  (* Cleanup *)
  (do h <- get_home;
   if wsRef h is Some _ then
     call WebSocket_close ;;;
     modify_home (λ h, set_refs None (audioContextRef h) (workletNodeRef h) (streamRef h) h)
   else ret tt) ;;;
  (do h <- get_home;
   if workletNodeRef h is Some _ then
     call WorkletNode_disconnect ;;;
     modify_home (λ h, set_refs (wsRef h) (audioContextRef h) None (streamRef h) h)
   else ret tt) ;;;
  (do h <- get_home;
   if audioContextRef h is Some _ then
     call AudioContext_close ;;;
     modify_home (λ h, set_refs (wsRef h) None (workletNodeRef h) (streamRef h) h)
   else ret tt) ;;;
  (do h <- get_home;
   match streamRef h with
   | Some stream =>
       stop_tracks 0 (tracks stream) ;;;
       modify_home (λ h, set_refs (wsRef h) (audioContextRef h) (workletNodeRef h) None h)
   | None => ret tt
   end) ;;;
  modify_home (setIsRecording false) ;;;
  modify_home (setStatus "Stopped").

Definition run_stopRecording (raises : Call -> bool) (st : Home)
    (persisted : option (list SessionData)) (now : Z) : World * Outcome unit :=
  stopRecording now raises {| home := st; stored := persisted; trace := [] |}.

(** The teardown calls, as opposed to the calls that save the session. *)
Definition is_teardown (c : Call) : bool :=
  match c with
  | WebSocket_close | WorkletNode_disconnect | AudioContext_close
  | Track_stop _ => true
  | _ => false
  end.

(** *** Vocabulary for the statements about the transcript *)

Definition finals (l : list TranscriptSegment) : list TranscriptSegment :=
  filter (λ s, is_final s = true) l.

Definition partials (l : list TranscriptSegment) : list TranscriptSegment :=
  filter (λ s, is_final s = false) l.

(** The shape every transcript has: final segments, then at most one more
    segment. *)
Definition settled (l : list TranscriptSegment) : Prop :=
  ∃ fs t, l = fs ++ t ∧ Forall (λ s, is_final s = true) fs ∧ (length t ≤ 1)%nat.

(** A parsed [partial]/[final] message. *)
Definition text_message (ty txt : string) (m : option Metrics) : Data :=
  {| data_type := Some ty; data_text := Some txt; data_model := None;
     data_message := None; data_metrics := m |}.

(** The message types the handler knows. *)
Definition known_types : list string :=
  ["connected"; "partial"; "final"; "model_switched"; "error"].

(** *** Vocabulary for the statements about stopRecording *)

(** The calls of a sequence that return before the first one that raises,
    and that first raising call. *)
Fixpoint completed (raises : Call -> bool) (cs : list Call) : list Call :=
  match cs with
  | [] => []
  | c :: cs' => if raises c then [] else c :: completed raises cs'
  end.

Fixpoint first_raise (raises : Call -> bool) (cs : list Call) : option Call :=
  match cs with
  | [] => None
  | c :: cs' => if raises c then Some c else first_raise raises cs'
  end.

Definition save_calls : list Call :=
  [localStorage_getItem; JSON_parse; localStorage_setItem].

(** The teardown calls [stopRecording] makes for the refs that are set, in
    program order. *)
Definition teardown_calls (st : Home) : list Call :=
  (if wsRef st is Some _ then [WebSocket_close] else []) ++
  (if workletNodeRef st is Some _ then [WorkletNode_disconnect] else []) ++
  (if audioContextRef st is Some _ then [AudioContext_close] else []) ++
  (if streamRef st is Some stream then Track_stop <$> seq 0 (tracks stream) else []).

(** The choices of raising calls that the program can meet: no teardown
    call raises. *)
Definition storage_only (raises : Call -> bool) : Prop :=
  ∀ c, is_teardown c = true → raises c = false.

Definition never : Call -> bool := λ _, false.

Definition only (c : Call) : Call -> bool := λ c', bool_decide (c' = c).

End Page.

(** ** components/ComparisonView.tsx *)

Module Comparison.

Record Metrics := {
  cpu_percent : float;
  memory_mb : float;
  avg_chunk_time_ms : float;
  rtf : float;
}.

Record SessionData := {
  model : string;
  timestamp : Z;
  duration : Z;
  metrics : list Metrics;
  transcript : string;
}.

(** The two [useState] cells of [ComparisonView]. *)
Record View := {
  sessions : list SessionData;
  selectedSessions : list nat;
}.

Definition initial : View := {| sessions := []; selectedSessions := [] |}.

(** [l.slice(-k)]: the last [k] elements, or all of [l] if it is shorter. *)
Definition slice_last (k : nat) (l : list nat) : list nat :=
  drop (length l - k) l.

(** The updater passed to [setSelectedSessions] in [toggleSession]. *)
Definition toggle (index : nat) (prev : list nat) : list nat :=
  if bool_decide (index ∈ prev) then
    filter (λ i, i ≠ index) prev
  else
    slice_last 2 (prev ++ [index]).   (* Keep max 2 sessions *)

Definition toggleSession (index : nat) (v : View) : View :=
  {| sessions := sessions v; selectedSessions := toggle index (selectedSessions v) |}.

(** [loadSessions], with [stored] the parsed value of the persisted key
    ([None]: nothing stored). *)
Definition loadSessions (stored : option (list SessionData)) (v : View) : View :=
  match stored with
  | Some parsed =>
      {| sessions := parsed;
         (* Auto-select last two sessions if available *)
         selectedSessions :=
           if (2 <=? length parsed)%nat then [length parsed - 2; length parsed - 1]%nat
           else if (length parsed =? 1)%nat then [0%nat]
           else selectedSessions v |}
  | None => v
  end.

(** [clearSessions], with [confirmed] the answer to the [confirm] dialog. *)
Definition clearSessions (confirmed : bool) (v : View) : View :=
  if confirmed then {| sessions := []; selectedSessions := [] |} else v.

Inductive Op :=
| Load (stored : option (list SessionData))
| Clear (confirmed : bool)
| Toggle (index : nat).

Definition apply (v : View) (o : Op) : View :=
  match o with
  | Load stored => loadSessions stored v
  | Clear confirmed => clearSessions confirmed v
  | Toggle index => toggleSession index v
  end.

Definition apply_all (v : View) (os : list Op) : View := foldl apply v os.

(** The accumulator of the [reduce] in [getAverageMetrics]. *)
Record Sum := {
  cpu : float;
  memory : float;
  chunkTime : float;
  sum_rtf : float;
}.

Record Averages := {
  avgCPU : float;
  avgMemory : float;
  avgChunkTime : float;
  avgRTF : float;
}.

Definition add_metrics (acc : Sum) (m : Metrics) : Sum :=
  {| cpu := PrimFloat.add (cpu acc) (cpu_percent m);
     memory := PrimFloat.add (memory acc) (memory_mb m);
     chunkTime := PrimFloat.add (chunkTime acc) (avg_chunk_time_ms m);
     sum_rtf := PrimFloat.add (sum_rtf acc) (rtf m) |}.

(** [getAverageMetrics]; [None] is the [null] it returns. *)
Definition getAverageMetrics (session : SessionData) : option Averages :=
  if (length (metrics session) =? 0)%nat then None
  else
    let sum :=
      foldl add_metrics
            {| cpu := 0%float; memory := 0%float; chunkTime := 0%float; sum_rtf := 0%float |}
            (metrics session) in
    let count := JS.of_length (length (metrics session)) in
    Some {| avgCPU := PrimFloat.div (cpu sum) count;
            avgMemory := PrimFloat.div (memory sum) count;
            avgChunkTime := PrimFloat.div (chunkTime sum) count;
            avgRTF := PrimFloat.div (sum_rtf sum) count |}.

(** The arithmetic mean of a sequence of numbers as JavaScript computes it:
    the terms are added from left to right, starting from 0, and the sum is
    divided by the number of terms. *)
Definition sum_left (xs : list float) : float := foldl PrimFloat.add 0%float xs.

Definition mean (xs : list float) : float :=
  PrimFloat.div (sum_left xs) (JS.of_length (length xs)).

End Comparison.

(** ** app/page.tsx: the worklet port handler *)

Module Forwarding.
Import AudioProcessor.

(** [WebSocket.readyState] *)
Inductive ReadyState := CONNECTING | OPEN | CLOSING | CLOSED.

#[export] Instance ReadyState_eq_dec : EqDecision ReadyState.
Proof. solve_decision. Defined.

(** [workletNode.port.onmessage]. [ws] is the ready state of the socket in
    [wsRef.current] ([None]: the ref is null); the result lists the binary
    messages handed to [ws.send]. *)
Definition port_onmessage (ws : option ReadyState) (event_data : AudioMessage)
  : list (list Z) :=
  if bool_decide (msg_type event_data = "audio") && bool_decide (ws = Some OPEN)
  then [msg_data event_data]
  else [].

(** The messages sent for a sequence of posted messages, each delivered
    while the socket is in the given state. *)
Definition forward (deliveries : list (option ReadyState * AudioMessage))
  : list (list Z) :=
  concat (map (λ d, port_onmessage d.1 d.2) deliveries).

End Forwarding.

(** ** app/page.tsx: switchModel and the life of the component *)

Module Controls.
Import Page.

(** How the request of [switchModel] ended: a response whose JSON body has
    the given [model] field, or a rejection (or an unreadable body). *)
Inductive FetchResult :=
| fetch_ok (model : option string)
| fetch_failed.

(** What [switchModel] does besides changing the state. *)
Inductive Effect :=
| alert (message : string)
| POST_api_model (model : string).

Definition switchModel (model : string) (r : FetchResult) (st : Home)
  : Home * list Effect :=
  if isRecording st then
    (st, [alert "Stop recording before switching models"])
  else
    match r with
    | fetch_ok m =>
        (setStatus ("Model set to " +:+ interpolate m) (setCurrentModel m st),
         [POST_api_model model])
    | fetch_failed =>
        (setStatus "Failed to switch model" st, [POST_api_model model])
    end.

(** One thing happening to the page: an event of the session, a run of
    [stopRecording], or a run of [switchModel]. The second component of
    the state is the list persisted under ['transcription_sessions']. *)
Inductive Step :=
| Ev (e : Event)
| Stop (raises : Call -> bool) (now : Z)
| Switch (model : string) (r : FetchResult).

Definition step (a : Home * option (list SessionData)) (s : Step)
  : Home * option (list SessionData) :=
  match s with
  | Ev e => (handle a.1 e, a.2)
  | Stop raises now =>
      let r := run_stopRecording raises a.1 a.2 now in
      (home r.1, stored r.1)
  | Switch model r => ((switchModel model r a.1).1, a.2)
  end.

Definition steps (a : Home * option (list SessionData)) (ss : list Step)
  : Home * option (list SessionData) :=
  foldl step a ss.

(** *** Vocabulary *)

(** The metrics sample an event puts on record, if any. *)
Definition recorded (e : Event) : option Metrics :=
  match e with
  | Message data _ =>
      if type_is data "partial" || type_is data "final" then data_metrics data
      else None
  | _ => None
  end.

(** The events that start a new session: a start whose audio setup
    succeeded. *)
Definition restarts (e : Event) : bool :=
  match e with Start (audio_ready _) _ => true | _ => false end.

(** The final segment a message commits, if any. *)
Definition committed (e : Event) : option TranscriptSegment :=
  match e with
  | Message data now =>
      if type_is data "final" && truthy (data_text data)
      then Some {| text := default "" (data_text data); type := final;
                   timestamp := now |}
      else None
  | _ => None
  end.

(** The events that empty the transcript. *)
Definition clears_transcript (e : Event) : bool :=
  match e with
  | Start (audio_ready _) _ | Reset => true
  | _ => false
  end.

(** All refs a running recording needs are set. *)
Definition equipped (st : Home) : Prop :=
  is_Some (wsRef st) ∧ is_Some (workletNodeRef st) ∧
  is_Some (audioContextRef st) ∧ is_Some (streamRef st).

(** The session events among some steps, and the steps that are not a
    stop. *)
Definition events_of (ss : list Step) : list Event :=
  omap (λ s, match s with Ev e => Some e | _ => None end) ss.

Definition is_Stop (s : Step) : bool :=
  match s with Stop _ _ => true | _ => false end.

Definition stops_saved (s : Step) : bool :=
  match s with
  | Stop raises _ => bool_decide (first_raise raises save_calls = None)
  | _ => false
  end.

End Controls.

(** ** components/MetricsDisplay.tsx *)

Module MetricsDisplay.

(** [value < thresholds[i]]: an index past the end gives [undefined], and
    no number is less than [undefined]. *)
Definition less_than (value : float) (threshold : option float) : bool :=
  match threshold with
  | Some t => PrimFloat.ltb value t
  | None => false
  end.

Definition getStatusColor (value : float) (thresholds : list float) : string :=
  if less_than value (thresholds !! 0%nat) then "text-green-400"
  else if less_than value (thresholds !! 1%nat) then "text-yellow-400"
  else "text-red-400".

Record RTFStatus := {
  color : string;
  label : string;
}.

Definition getRTFStatus (rtf : float) : RTFStatus :=
  if PrimFloat.ltb rtf 0.5 then {| color := "text-green-400"; label := "Excellent" |}
  else if PrimFloat.ltb rtf 1.0 then {| color := "text-green-400"; label := "Real-time" |}
  else if PrimFloat.ltb rtf 1.5 then {| color := "text-yellow-400"; label := "Acceptable" |}
  else {| color := "text-red-400"; label := "Slow" |}.

(** What the panel derives from the metrics. The texts made with
    [toFixed] are left out. *)
Record Panel := {
  cpu_color : string;
  cpu_width : float;
  memory_color : string;
  memory_width : float;
  chunk_color : string;
  rtfStatus : RTFStatus;
  speed : string;
}.

Inductive Rendered :=
| placeholder            (* "Start recording to see metrics" *)
| panel (p : Panel).

(** The component: [!isRecording || !metrics] gives the placeholder. *)
Definition MetricsDisplay (metrics : option Page.Metrics) (isRecording : bool)
  : Rendered :=
  if negb isRecording then placeholder
  else
    match metrics with
    | None => placeholder
    | Some metrics =>
        let rtfStatus := getRTFStatus (Page.rtf metrics) in
        panel
          {| cpu_color := getStatusColor (Page.cpu_percent metrics) [50; 80]%float;
             cpu_width := JS.Math_min (Page.cpu_percent metrics) 100;
             memory_color := getStatusColor (Page.memory_mb metrics) [500; 1000]%float;
             memory_width :=
               JS.Math_min
                 (PrimFloat.mul (PrimFloat.div (Page.memory_mb metrics) 2000) 100) 100;
             chunk_color :=
               getStatusColor (Page.avg_chunk_time_ms metrics) [100; 200]%float;
             rtfStatus := rtfStatus;
             speed := if PrimFloat.ltb (Page.rtf metrics) 1.0
                      then "Faster than real-time" else "Slower than real-time" |}
    end.

(** What [Home] shows in its metrics column. *)
Definition metrics_column (st : Page.Home) : Rendered :=
  MetricsDisplay (Page.st_metrics st) (Page.isRecording st).

(** *** Vocabulary *)

(** How alarming a colour is. *)
Definition severity (c : string) : nat :=
  if bool_decide (c = "text-green-400") then 0
  else if bool_decide (c = "text-yellow-400") then 1
  else 2.

End MetricsDisplay.

(** ** components/ComparisonView.tsx: the compared rows *)

Module ComparisonData.
Import Comparison.

(** An element of [comparisonData]. The spread of [avg] contributes the
    four averages, or nothing when [avg] is [null]. *)
Record Row := {
  name : string;
  row_model : string;
  row_avg : option Averages;
}.

Section WithLocale.
(** [new Date(t).toLocaleTimeString()] depends on the locale of the host. *)
Variable toLocaleTimeString : Z -> string.

Definition row_of (session : SessionData) : Row :=
  {| name := model session +:+ " (" +:+ toLocaleTimeString (timestamp session) +:+ ")";
     row_model := model session;
     row_avg := getAverageMetrics session |}.

(** [comparisonData]. Reading [session.model] for an index without a
    session raises a TypeError ([None]). *)
Definition comparisonData (v : View) : option (list Row) :=
  rows ← mapM (λ idx, row_of <$> sessions v !! idx) (selectedSessions v);
  Some (filter (λ d, is_Some (row_avg d)) rows).

(** The body of the component: with no sessions it returns before
    [comparisonData] is computed and shows no rows. *)
Definition render (v : View) : option (list Row) :=
  if (length (sessions v) =? 0)%nat then Some [] else comparisonData v.

End WithLocale.

(** The component after its mount effect ran [loadSessions]. *)
Definition mount (stored : option (list SessionData)) : View :=
  loadSessions stored initial.

(** The operations the rendered component offers: a toggle button exists
    for each session, and the load only runs on mount. *)
Definition offered (v : View) (o : Op) : bool :=
  match o with
  | Toggle index => bool_decide (index < length (sessions v))%nat
  | Clear _ => true
  | Load _ => false
  end.

Fixpoint all_offered (v : View) (os : list Op) : bool :=
  match os with
  | [] => true
  | o :: os' => offered v o && all_offered (apply v o) os'
  end.

(** Every selected index has a session. *)
Definition in_bounds (v : View) : Prop :=
  Forall (λ i, (i < length (sessions v))%nat) (selectedSessions v).

End ComparisonData.

(** ** Exact values of numbers *)

Module Exact.

(** The real number a binary64 value stands for, as a rational; NaN and
    the infinities stand for none. *)
Definition value (f : float) : option Q :=
  match Prim2SF f with
  | S754_zero _ => Some 0%Q
  | S754_finite s m e =>
      Some (inject_Z (if s then Z.neg m else Z.pos m) * Qpower 2 e)%Q
  | _ => None
  end.

(** The arithmetic mean of rationals: their sum divided by their number. *)
Definition arithmetic_mean (qs : list Q) : Q :=
  (foldr Qplus 0%Q qs / inject_Z (Z.of_nat (length qs)))%Q.

(** [v] is the arithmetic mean of the numbers [xs]. *)
Definition is_arithmetic_mean (v : float) (xs : list float) : Prop :=
  ∃ q qs, value v = Some q ∧ mapM value xs = Some qs ∧
          (q == arithmetic_mean qs)%Q.

End Exact.

(** * Properties *)

(** ** ComparisonView: the selection window *)

Section Selection.
Import Comparison.

Lemma slice_last_length k l : (length (slice_last k l) ≤ k)%nat.
Proof. unfold slice_last. rewrite length_drop. lia. Qed.

Lemma toggle_length_le index prev :
  (length prev ≤ 2)%nat → (length (toggle index prev) ≤ 2)%nat.
Proof.
  intros Hprev. unfold toggle. case_bool_decide.
  - etrans; [apply length_filter | exact Hprev].
  - apply slice_last_length.
Qed.

Lemma apply_selected_le v o :
  (length (selectedSessions v) ≤ 2)%nat →
  (length (selectedSessions (apply v o)) ≤ 2)%nat.
Proof.
  intros Hv. destruct o as [[parsed|] | [] | index];
    cbn [apply loadSessions clearSessions toggleSession selectedSessions];
    try done.
  - repeat case_match; simpl; lia.
  - simpl; lia.
  - by apply toggle_length_le.
Qed.

Lemma apply_all_selected_le os v :
  (length (selectedSessions v) ≤ 2)%nat →
  (length (selectedSessions (apply_all v os)) ≤ 2)%nat.
Proof.
  revert v. induction os as [|o os IH]; intros v Hv; [done |].
  apply IH. by apply apply_selected_le.
Qed.

Lemma toggle_evicts_oldest a b c : c ≠ a → c ≠ b → toggle c [a; b] = [b; c].
Proof.
  intros Ha Hb. unfold toggle. rewrite bool_decide_eq_false_2; [done |].
  rewrite !elem_of_cons, elem_of_nil. tauto.
Qed.

(** C8: over every sequence of loads, clears and toggles the selection
    holds at most two indices; toggling in a third index that is not yet
    selected drops the older of the two selected ones and appends the new
    one; selecting 0, 1, 2 in order from the empty selection leaves [1; 2]. *)
Theorem selection_window :
  (∀ os, (length (selectedSessions (apply_all initial os)) ≤ 2)%nat) ∧
  (∀ a b c, c ≠ a → c ≠ b → toggle c [a; b] = [b; c]) ∧
  selectedSessions (apply_all initial [Toggle 0; Toggle 1; Toggle 2]) = [1; 2]%nat.
Proof.
  split; [| split].
  - intros os. apply apply_all_selected_le. simpl. lia.
  - apply toggle_evicts_oldest.
  - reflexivity.
Qed.

Lemma selection_window_witness : toggle 2 [0; 1]%nat = [1; 2]%nat.
Proof.
  destruct selection_window as (_ & Hevict & _).
  apply Hevict; discriminate.
Defined.

End Selection.

(** ** ComparisonView: averages *)

Section Averages.
Import Comparison.

Lemma foldl_add_metrics_cpu ms acc :
  cpu (foldl add_metrics acc ms) = foldl PrimFloat.add (cpu acc) (map cpu_percent ms).
Proof. revert acc. induction ms as [|m ms IH]; intros acc; [done | apply IH]. Qed.

Lemma foldl_add_metrics_memory ms acc :
  memory (foldl add_metrics acc ms) = foldl PrimFloat.add (memory acc) (map memory_mb ms).
Proof. revert acc. induction ms as [|m ms IH]; intros acc; [done | apply IH]. Qed.

Lemma foldl_add_metrics_chunkTime ms acc :
  chunkTime (foldl add_metrics acc ms)
  = foldl PrimFloat.add (chunkTime acc) (map avg_chunk_time_ms ms).
Proof. revert acc. induction ms as [|m ms IH]; intros acc; [done | apply IH]. Qed.

Lemma foldl_add_metrics_rtf ms acc :
  sum_rtf (foldl add_metrics acc ms) = foldl PrimFloat.add (sum_rtf acc) (map rtf ms).
Proof. revert acc. induction ms as [|m ms IH]; intros acc; [done | apply IH]. Qed.

Lemma getAverageMetrics_nonempty s :
  metrics s ≠ [] →
  getAverageMetrics s =
    Some {| avgCPU := mean (map cpu_percent (metrics s));
            avgMemory := mean (map memory_mb (metrics s));
            avgChunkTime := mean (map avg_chunk_time_ms (metrics s));
            avgRTF := mean (map rtf (metrics s)) |}.
Proof.
  intros Hne. unfold getAverageMetrics, mean, sum_left.
  destruct (metrics s) as [|m ms] eqn:Hms; [done |].
  rewrite !length_map.
  change (length (m :: ms) =? 0)%nat with false. cbv iota.
  rewrite foldl_add_metrics_cpu, foldl_add_metrics_memory,
    foldl_add_metrics_chunkTime, foldl_add_metrics_rtf.
  reflexivity.
Qed.

(** The number of samples as a binary64 value is exact. *)

Lemma digits2_pos_bounds p :
  2 ^ (Z.pos (digits2_pos p) - 1) ≤ Z.pos p < 2 ^ Z.pos (digits2_pos p).
Proof.
  induction p as [p IH | p IH |]; cbn [digits2_pos].
  - rewrite Pos2Z.inj_succ.
    replace (Z.succ (Z.pos (digits2_pos p)) - 1)
      with (Z.succ (Z.pos (digits2_pos p) - 1)) by lia.
    rewrite !Z.pow_succ_r by lia. lia.
  - rewrite Pos2Z.inj_succ.
    replace (Z.succ (Z.pos (digits2_pos p)) - 1)
      with (Z.succ (Z.pos (digits2_pos p) - 1)) by lia.
    rewrite !Z.pow_succ_r by lia. lia.
  - simpl. lia.
Qed.

Lemma digits2_pos_le p n : 0 ≤ n → Z.pos p < 2 ^ n → Z.pos (digits2_pos p) ≤ n.
Proof.
  intros Hn Hp. destruct (digits2_pos_bounds p) as [Hlo _].
  destruct (Z_le_gt_dec (Z.pos (digits2_pos p)) n) as [|Hgt]; [assumption |].
  assert (2 ^ n ≤ 2 ^ (Z.pos (digits2_pos p) - 1))
    by (apply Z.pow_le_mono_r; lia).
  lia.
Qed.

Lemma iter_xO_spec k : ∀ p,
  digits2_pos (Pos.iter xO p k) = (digits2_pos p + k)%positive ∧
  Z.pos (Pos.iter xO p k) = Z.pos p * 2 ^ Z.pos k.
Proof.
  induction k as [|k IH] using Pos.peano_ind; intros p.
  - simpl. split; [by rewrite Pos.add_1_r | lia].
  - rewrite Pos.iter_succ. cbn [digits2_pos]. destruct (IH p) as [-> Hv].
    split; [by rewrite Pos.add_succ_r |].
    rewrite Pos2Z.inj_xO, Hv, Pos2Z.inj_succ, Z.pow_succ_r by lia. lia.
Qed.

(** Rounding a positive integer below 2^53 to binary64 changes nothing:
    the mantissa is the integer shifted left, the exponent undoes the
    shift. *)
Lemma binary_normalize_exact mx :
  Z.pos mx < 2 ^ 53 →
  ∃ m e, binary_normalize prec emax (Z.pos mx) 0 false = S754_finite false m e
         ∧ e ≤ 0 ∧ Z.pos m = Z.pos mx * 2 ^ (- e).
Proof.
  intros Hlt.
  pose proof (digits2_pos_le mx 53 ltac:(lia) Hlt) as Hd.
  assert (∃ mz ez,
    shl_align mx 0 (fexp prec emax (Z.pos (digits2_pos mx) + 0)) = (mz, ez) ∧
    ez ≤ 0 ∧ -52 ≤ ez ∧ Z.pos mz = Z.pos mx * 2 ^ (- ez) ∧
    Z.pos (digits2_pos mz) = 53) as (mz & ez & Hsh & Hez & Hez' & Hmz & Hdz).
  { unfold shl_align, fexp, emin, prec, emax.
    rewrite Z.add_0_r, Z.max_l by lia. rewrite Z.sub_0_r.
    destruct (Z.pos (digits2_pos mx) - 53) as [|k|k] eqn:Hk; [| lia |].
    - exists mx, 0. repeat split; lia.
    - destruct (iter_xO_spec k mx) as [Hdig Hval].
      exists (Pos.iter xO mx k), (Z.neg k). rewrite Hdig, Hval.
      repeat split; lia. }
  exists mz, ez. split; [| split; assumption].
  unfold binary_normalize, binary_round. rewrite Hsh.
  unfold binary_round_aux, shr_fexp.
  assert (fexp prec emax (Zdigits2 (Z.pos mz) + ez) - ez = 0) as ->.
  { unfold fexp, emin, prec, emax. cbn [Zdigits2]. rewrite Z.max_l by lia. lia. }
  cbn [shr shr_record_of_loc shr_m loc_of_shr_record round_nearest_even].
  assert (fexp prec emax (Zdigits2 (Z.pos mz) + ez) - ez = 0) as ->.
  { unfold fexp, emin, prec, emax. cbn [Zdigits2]. rewrite Z.max_l by lia. lia. }
  cbn [shr shr_m].
  unfold prec, emax. destruct (Z.leb_spec ez (1024 - 53)); [reflexivity | lia].
Qed.

Lemma of_length_exact n :
  Z.of_nat n < 2 ^ 53 →
  ∃ q, Exact.value (JS.of_length n) = Some q ∧ (q == inject_Z (Z.of_nat n))%Q.
Proof.
  intros Hn. unfold Exact.value, JS.of_length.
  rewrite FloatAxioms.of_uint63_spec, Uint63.of_Z_spec.
  rewrite Z.mod_small
    by (split; [lia |]; apply (Z.lt_trans _ (2 ^ 53)); [done | reflexivity]).
  destruct (Z.of_nat n) as [|mx|mx] eqn:Hz; [| | lia].
  - exists 0%Q. split; reflexivity.
  - destruct (binary_normalize_exact mx Hn) as (m & e & -> & He & Hm).
    eexists. split; [reflexivity |].
    rewrite Hm, inject_Z_mult.
    destruct e as [|e|e]; [| lia |].
    + change (inject_Z (2 ^ (- 0))) with 1%Q. change (Qpower 2 0) with 1%Q. ring.
    + change (- Z.neg e) with (Z.pos e).
      rewrite <- Qmult_assoc.
      assert (inject_Z (2 ^ Z.pos e) * Qpower 2 (Z.neg e) == 1)%Q as ->.
      { change (Z.neg e) with (- Z.pos e). rewrite Qpower_opp.
        change 2%Q with (inject_Z 2) at 1.
        rewrite <- Zpower_Qpower by lia.
        apply Qmult_inv_r. intros H. unfold Qeq in H. simpl in H. lia. }
      ring.
Qed.

(** C7, as the code has it: for a session without metrics samples
    [getAverageMetrics] returns [null] (no record of averages, in
    particular not one of zeros); for a session with at least one sample it
    returns, field by field, the binary64 sum of the samples, added to 0
    one by one in sequence order, divided by their number, which as a
    binary64 value is exact; for two samples with rtf 0.4 and 0.6 the
    average rtf is 0.5. *)
Theorem getAverageMetrics_spec :
  (∀ s, metrics s = [] → getAverageMetrics s = None) ∧
  (∀ s, metrics s ≠ [] →
     getAverageMetrics s =
       Some {| avgCPU := mean (map cpu_percent (metrics s));
               avgMemory := mean (map memory_mb (metrics s));
               avgChunkTime := mean (map avg_chunk_time_ms (metrics s));
               avgRTF := mean (map rtf (metrics s)) |}) ∧
  (∀ xs, mean xs
         = PrimFloat.div (foldl PrimFloat.add 0%float xs) (JS.of_length (length xs))) ∧
  (∀ n, Z.of_nat n < 2 ^ 53 →
     ∃ q, Exact.value (JS.of_length n) = Some q ∧ (q == inject_Z (Z.of_nat n))%Q) ∧
  (∀ s m1 m2, metrics s = [m1; m2] → rtf m1 = 0.4%float → rtf m2 = 0.6%float →
     avgRTF <$> getAverageMetrics s = Some 0.5%float).
Proof.
  split; [| split; [| split; [| split]]].
  - intros s Hs. unfold getAverageMetrics. by rewrite Hs.
  - apply getAverageMetrics_nonempty.
  - reflexivity.
  - apply of_length_exact.
  - intros s m1 m2 Hs H1 H2.
    rewrite getAverageMetrics_nonempty by (rewrite Hs; done).
    rewrite Hs. simpl. unfold mean, sum_left. simpl. rewrite H1, H2.
    f_equal.
Qed.

Definition sample_of_rtf (r : float) : Metrics :=
  {| cpu_percent := 12.5; memory_mb := 512; avg_chunk_time_ms := 40; rtf := r |}.

Definition session_of (ms : list Metrics) : SessionData :=
  {| model := "vosk"; timestamp := 0; duration := 1000; metrics := ms;
     transcript := "" |}.

Lemma getAverageMetrics_spec_witness :
  getAverageMetrics (session_of []) = None ∧
  avgRTF <$> getAverageMetrics (session_of [sample_of_rtf 0.4; sample_of_rtf 0.6])
    = Some 0.5%float ∧
  (∃ q, Exact.value (JS.of_length 3) = Some q ∧ (q == inject_Z (Z.of_nat 3))%Q).
Proof.
  destruct getAverageMetrics_spec as (Hnone & _ & _ & Hcount & Hex).
  split; [| split].
  - apply Hnone. reflexivity.
  - apply (Hex _ (sample_of_rtf 0.4) (sample_of_rtf 0.6)); reflexivity.
  - apply Hcount. reflexivity.
Defined.

(** C7 fails as stated: for three samples with rtf 0.1, 0.2 and 0.3 the
    average rtf returned is 0.20000000000000004, which is not the
    arithmetic mean of the three values; and for two samples with rtf 1e308
    the average returned is infinity, which is no number at all. *)
Lemma average_is_not_arithmetic_mean :
  let s := session_of [sample_of_rtf 0.1; sample_of_rtf 0.2; sample_of_rtf 0.3] in
  let s' := session_of [sample_of_rtf 1e308; sample_of_rtf 1e308] in
  avgRTF <$> getAverageMetrics s = Some 0.20000000000000004%float ∧
  ¬ Exact.is_arithmetic_mean 0.20000000000000004 (rtf <$> metrics s) ∧
  avgRTF <$> getAverageMetrics s' = Some infinity ∧
  ¬ Exact.is_arithmetic_mean infinity (rtf <$> metrics s').
Proof.
  intros s s'. split; [reflexivity |]. split; [| split; [reflexivity |]].
  - intros (q & qs & Hq & Hqs & Hmean).
    vm_compute in Hq. vm_compute in Hqs.
    injection Hq as <-. injection Hqs as <-.
    vm_compute in Hmean. discriminate.
  - intros (q & qs & Hq & _). vm_compute in Hq. discriminate.
Qed.

(** The example of the claim is exact: 0.5 is the arithmetic mean of the
    values 0.4 and 0.6 stand for. *)
Example mean_of_two_is_exact : Exact.is_arithmetic_mean 0.5 [0.4; 0.6]%float.
Proof.
  eexists _, _. split; [reflexivity |]. split; [reflexivity |].
  vm_compute. reflexivity.
Qed.

End Averages.

(** ** page.tsx: the transcript reconciler *)

Section Reconciler.
Import Page.

Lemma settled_nil : settled [].
Proof. exists [], []. split; [done |]. split; [constructor | simpl; lia]. Qed.

Lemma finals_all_final l : Forall (λ s, is_final s = true) (finals l).
Proof.
  apply Forall_forall. intros s Hs. unfold finals in Hs.
  by apply list_elem_of_filter in Hs as [? _].
Qed.

Lemma finals_of_final l : Forall (λ s, is_final s = true) l → finals l = l.
Proof.
  induction 1 as [|s l Hs _ IH]; [done |].
  unfold finals in *. rewrite filter_cons_True by done. by rewrite IH.
Qed.

Lemma partials_of_final l : Forall (λ s, is_final s = true) l → partials l = [].
Proof.
  induction 1 as [|s l Hs _ IH]; [done |].
  unfold partials in *. rewrite filter_cons_False; [done |]. by rewrite Hs.
Qed.

Lemma finals_app l1 l2 : finals (l1 ++ l2) = finals l1 ++ finals l2.
Proof. apply filter_app. Qed.

Lemma partials_app l1 l2 : partials (l1 ++ l2) = partials l1 ++ partials l2.
Proof. apply filter_app. Qed.

Lemma finals_singleton s : finals [s] = if is_final s then [s] else [].
Proof.
  unfold finals. destruct (is_final s) eqn:Hs.
  - by rewrite filter_cons_True.
  - rewrite filter_cons_False; [done |]. by rewrite Hs.
Qed.

Lemma partials_singleton s : partials [s] = if is_final s then [] else [s].
Proof.
  unfold partials. destruct (is_final s) eqn:Hs.
  - rewrite filter_cons_False; [done |]. by rewrite Hs.
  - by rewrite filter_cons_True.
Qed.

Lemma add_segment_eq data now prev :
  add_segment data now prev =
    finals prev ++ [ {| text := default "" (data_text data);
                        type := if type_is data "partial" then partial else final;
                        timestamp := now |} ].
Proof. unfold add_segment, finals. by destruct (type_is data "partial"). Qed.

Lemma add_segment_settled data now prev : settled (add_segment data now prev).
Proof.
  rewrite add_segment_eq. eexists _, _. split; [done |].
  split; [apply finals_all_final | simpl; lia].
Qed.

(** What [onmessage] does to the transcript, whatever the rest of the state. *)
Lemma onmessage_transcript data now st :
  st_transcript (onmessage data now st) =
    if (type_is data "partial" || type_is data "final") && truthy (data_text data)
       && negb (type_is data "connected")
    then add_segment data now (st_transcript st)
    else st_transcript st.
Proof.
  unfold onmessage.
  destruct (type_is data "connected"); [by rewrite andb_false_r |].
  destruct (type_is data "partial" || type_is data "final"); simpl.
  - destruct (truthy (data_text data)), (data_metrics data); reflexivity.
  - destruct (type_is data "model_switched"); [done |].
    by destruct (type_is data "error").
Qed.

Lemma startRecording_transcript r now st :
  st_transcript (startRecording r now st) = [] ∨
  st_transcript (startRecording r now st) = st_transcript st.
Proof. destruct r; simpl; auto. Qed.

Lemma handle_settled st e : settled (st_transcript st) → settled (st_transcript (handle st e)).
Proof.
  intros Hst. destruct e as [r now | data now | | | |]; simpl; try done.
  - destruct (startRecording_transcript r now st) as [Hnil | ->]; [| done].
    rewrite Hnil. apply settled_nil.
  - rewrite onmessage_transcript. case_match; [apply add_segment_settled | done].
  - apply settled_nil.
Qed.

Lemma handle_all_settled es st :
  settled (st_transcript st) → settled (st_transcript (handle_all st es)).
Proof.
  revert st. induction es as [|e es IH]; intros st Hst; [done |].
  apply IH. by apply handle_settled.
Qed.

Lemma reachable_settled es : settled (st_transcript (handle_all initial es)).
Proof. apply handle_all_settled. apply settled_nil. Qed.

Lemma settled_partials l : settled l → (length (partials l) ≤ 1)%nat.
Proof.
  intros (fs & t & -> & Hfs & Ht).
  rewrite partials_app, partials_of_final by done. simpl.
  etrans; [apply length_filter | done].
Qed.

Lemma settled_partial_last l i s :
  settled l → l !! i = Some s → type s = partial → S i = length l.
Proof.
  intros (fs & t & -> & Hfs & Ht) Hi Hs.
  destruct (decide (i < length fs)%nat) as [Hlt | Hge].
  - rewrite lookup_app_l in Hi by done.
    eapply Forall_lookup_1 in Hfs; [| done].
    unfold is_final in Hfs. by rewrite Hs in Hfs.
  - apply lookup_lt_Some in Hi. rewrite length_app in *. lia.
Qed.

Lemma settled_split l : settled l → l = finals l ++ partials l.
Proof.
  intros (fs & t & -> & Hfs & Ht).
  rewrite finals_app, partials_app, finals_of_final, partials_of_final by done.
  simpl. rewrite <- (assoc_L (++)). f_equal.
  destruct t as [|s [|? ?]]; [done | | simpl in Ht; lia].
  rewrite finals_singleton, partials_singleton. by destruct (is_final s).
Qed.

Lemma finals_add_segment data now prev :
  finals (add_segment data now prev) = finals prev ∨
  ∃ s, type s = final ∧ finals (add_segment data now prev) = finals prev ++ [s].
Proof.
  rewrite add_segment_eq, finals_app, finals_singleton.
  rewrite (finals_of_final (finals prev)) by apply finals_all_final.
  destruct (type_is data "partial"); simpl.
  - left. apply app_nil_r.
  - right. eexists. split; [| reflexivity]. reflexivity.
Qed.

(** C4: from an empty transcript, the messages partial "he", partial
    "hello", final "hello world" leave exactly one segment, the final one
    with text "hello world": the committed text is "hello world", nothing
    is duplicated, and no partial segment remains. *)
Theorem reconcile_hello_world st t1 t2 t3 m1 m2 m3 now :
  let st' := handle_all (resetTranscript st)
               [Message (text_message "partial" "he" m1) t1;
                Message (text_message "partial" "hello" m2) t2;
                Message (text_message "final" "hello world" m3) t3] in
  st_transcript st' = [ {| text := "hello world"; type := final; timestamp := t3 |} ] ∧
  join_texts (finals (st_transcript st')) = "hello world" ∧
  partials (st_transcript st') = [] ∧
  transcript (make_sessionData st' now) = "hello world".
Proof.
  assert (Hsegs :
    st_transcript (handle_all (resetTranscript st)
               [Message (text_message "partial" "he" m1) t1;
                Message (text_message "partial" "hello" m2) t2;
                Message (text_message "final" "hello world" m3) t3])
    = [ {| text := "hello world"; type := final; timestamp := t3 |} ]).
  { unfold handle_all. cbn [foldl handle].
    rewrite !onmessage_transcript. reflexivity. }
  cbv zeta. unfold make_sessionData. cbn [transcript]. rewrite Hsegs.
  repeat split; reflexivity.
Qed.

(** C5: in every state reached from the initial one by any sequence of
    events, the transcript holds at most one partial segment, a partial
    segment can only be its last element, and handling one more message
    keeps the final segments as they are, in their order, as a prefix of
    the final segments afterwards. *)
Theorem reconciler_invariant (es : list Event) :
  let st := handle_all initial es in
  (length (partials (st_transcript st)) ≤ 1)%nat ∧
  (∀ i s, st_transcript st !! i = Some s → type s = partial →
          S i = length (st_transcript st)) ∧
  (∀ data now,
     finals (st_transcript st) `prefix_of`
     finals (st_transcript (onmessage data now st))).
Proof.
  intros st. pose proof (reachable_settled es) as Hst. fold st in Hst.
  split; [by apply settled_partials |].
  split; [intros i s; by apply settled_partial_last |].
  intros data now. rewrite onmessage_transcript. case_match; [| done].
  destruct (finals_add_segment data now (st_transcript st)) as [-> | (s & _ & ->)];
    [done | by apply prefix_app_r].
Qed.

Lemma reconciler_invariant_witness :
  let st := handle_all initial
              [Start (audio_ready {| tracks := 1 |}) 0;
               Message (text_message "final" "good morning" None) 10;
               Message (text_message "partial" "every" None) 20] in
  S 1 = length (st_transcript st).
Proof.
  intros st.
  destruct (reconciler_invariant
              [Start (audio_ready {| tracks := 1 |}) 0;
               Message (text_message "final" "good morning" None) 10;
               Message (text_message "partial" "every" None) 20])
    as (_ & Hlast & _).
  apply (Hlast 1%nat {| text := "every"; type := partial; timestamp := 20 |});
    reflexivity.
Defined.

(** C9: a message whose type is none of connected, partial, final,
    model_switched, error (or that has no type) leaves the whole state of
    the component unchanged, so in particular the transcript, the metrics
    history, the current model and the status. *)
Theorem onmessage_unknown_type data now st :
  (∀ ty, ty ∈ known_types → data_type data ≠ Some ty) →
  onmessage data now st = st.
Proof.
  intros Hty. unfold onmessage, type_is.
  rewrite !bool_decide_eq_false_2; [done | ..];
    apply Hty; unfold known_types; rewrite !elem_of_cons; tauto.
Qed.

Lemma onmessage_unknown_type_witness :
  onmessage {| data_type := Some "heartbeat"; data_text := Some "tick";
               data_model := Some "whisper"; data_message := None;
               data_metrics := None |} 42 initial = initial.
Proof.
  apply onmessage_unknown_type.
  intros ty Hty. unfold known_types in Hty.
  repeat (apply elem_of_cons in Hty as [-> | Hty]; [discriminate |]).
  by apply elem_of_nil in Hty.
Defined.

(** C10: a partial or final message whose text is absent or empty leaves
    the transcript as it is; if it carries metrics, they are appended to
    the metrics history and become the displayed metrics. *)
Theorem onmessage_empty_text data now st :
  data_type data = Some "partial" ∨ data_type data = Some "final" →
  data_text data = None ∨ data_text data = Some "" →
  st_transcript (onmessage data now st) = st_transcript st ∧
  (∀ m, data_metrics data = Some m →
     metricsHistoryRef (onmessage data now st) = metricsHistoryRef st ++ [m] ∧
     st_metrics (onmessage data now st) = Some m).
Proof.
  intros Hty Htext.
  assert (truthy (data_text data) = false) as Hfalsy
    by (destruct Htext as [-> | ->]; reflexivity).
  split.
  - rewrite onmessage_transcript, Hfalsy. by rewrite andb_false_r.
  - intros m Hm. unfold onmessage, type_is. rewrite Hfalsy, Hm.
    destruct Hty as [-> | ->]; done.
Qed.

Lemma onmessage_empty_text_witness :
  let m := {| cpu_percent := 35; memory_mb := 812; avg_chunk_time_ms := 18;
              rtf := 0.25; processing_time_ms := Some 90%float |} in
  let data := {| data_type := Some "partial"; data_text := Some "";
                 data_model := None; data_message := None;
                 data_metrics := Some m |} in
  st_transcript (onmessage data 7 initial) = st_transcript initial ∧
  metricsHistoryRef (onmessage data 7 initial) = metricsHistoryRef initial ++ [m] ∧
  st_metrics (onmessage data 7 initial) = Some m.
Proof.
  intros m data.
  destruct (onmessage_empty_text data 7 initial) as (Hsame & Hmetrics).
  - left; reflexivity.
  - right; reflexivity.
  - split; [exact Hsame | apply Hmetrics; reflexivity].
Defined.

End Reconciler.

(** ** page.tsx: stopRecording *)

Section StopRecording.
Import Page.

Lemma completed_never cs : completed never cs = cs.
Proof. induction cs as [|c cs IH]; simpl; [done | by rewrite IH]. Qed.

Lemma first_raise_never cs : first_raise never cs = None.
Proof. induction cs as [|c cs IH]; simpl; done. Qed.

(** A call followed by the rest of the routine. *)
Lemma call_bind {B} c (k : unit → Eff B) raises w :
  bind (call c) k raises w =
    if raises c then (w, Raised c)
    else k tt raises {| home := home w; stored := stored w; trace := trace w ++ [c] |}.
Proof. unfold bind, call. by destruct (raises c). Qed.

(** The loop over the tracks, for any choice of raising calls. *)
Lemma stop_tracks_run n : ∀ i raises w,
  stop_tracks i n raises w =
    ({| home := home w; stored := stored w;
        trace := trace w ++ completed raises (Track_stop <$> seq i n) |},
     match first_raise raises (Track_stop <$> seq i n) with
     | Some c => Raised c
     | None => Returned tt
     end).
Proof.
  induction n as [|n IH]; intros i raises [h s t]; cbn [stop_tracks].
  - unfold ret. simpl. by rewrite app_nil_r.
  - rewrite call_bind. simpl. destruct (raises (Track_stop i)).
    + by rewrite app_nil_r.
    + rewrite IH. simpl. by rewrite <- (assoc_L (++)).
Qed.

(** Symbolic execution of the routine: split on whether the next call
    raises; if it does the run is over, otherwise carry on. *)
Ltac raise_or_go raises c :=
  destruct (raises c);
  [ by cbn
  | cbn -[stop_tracks seq fmap make_sessionData] ].

Lemma stopRecording_run raises st persisted now :
  let calls := save_calls ++ teardown_calls st in
  let r := run_stopRecording raises st persisted now in
  trace r.1 = completed raises calls ∧
  r.2 = match first_raise raises calls with
        | Some c => Raised c
        | None => Returned tt
        end.
Proof.
  destruct st as [rec tr cm me sc stt ws ctx node stream start hist].
  unfold run_stopRecording, stopRecording, save_calls, teardown_calls.
  cbn [wsRef workletNodeRef audioContextRef streamRef].
  unfold bind, call, get_home, get_stored, put_stored, modify_home, ret.
  cbn -[stop_tracks seq fmap make_sessionData].
  raise_or_go raises localStorage_getItem.
  raise_or_go raises JSON_parse.
  raise_or_go raises localStorage_setItem.
  destruct ws; cbn -[stop_tracks seq fmap make_sessionData];
    [raise_or_go raises WebSocket_close |];
    (destruct node; cbn -[stop_tracks seq fmap make_sessionData];
       [raise_or_go raises WorkletNode_disconnect |]);
    (destruct ctx; cbn -[stop_tracks seq fmap make_sessionData];
       [raise_or_go raises AudioContext_close |]);
    (destruct stream as [[n]|]; cbn -[stop_tracks seq fmap make_sessionData];
       [| done]);
    rewrite stop_tracks_run; cbn -[seq fmap make_sessionData];
    by destruct (first_raise raises (Track_stop <$> seq 0 n)).
Qed.

Lemma stopRecording_never st persisted now :
  run_stopRecording never st persisted now =
    ({| home := setStatus "Stopped"
                  (setIsRecording false (set_refs None None None None st));
        stored := Some (default [] persisted ++ [make_sessionData st now]);
        trace := save_calls ++ teardown_calls st |},
     Returned tt).
Proof.
  destruct st as [rec tr cm me sc stt ws ctx node stream start hist].
  unfold run_stopRecording, stopRecording, teardown_calls.
  destruct ws, ctx, node, stream as [[n]|];
    unfold bind; cbn -[stop_tracks seq fmap]; rewrite ?stop_tracks_run;
    cbn -[seq fmap]; rewrite ?completed_never, ?first_raise_never;
    reflexivity.
Qed.

Lemma completed_app raises cs1 cs2 :
  completed raises (cs1 ++ cs2) =
    completed raises cs1 ++
    (if first_raise raises cs1 is Some _ then [] else completed raises cs2).
Proof.
  induction cs1 as [|c cs1 IH]; simpl; [done |].
  destruct (raises c); [done |]. by rewrite IH.
Qed.

Lemma first_raise_app raises cs1 cs2 :
  first_raise raises (cs1 ++ cs2) =
    if first_raise raises cs1 is Some c then Some c else first_raise raises cs2.
Proof.
  induction cs1 as [|c cs1 IH]; simpl; [done |].
  by destruct (raises c).
Qed.

Lemma completed_no_raise raises cs :
  first_raise raises cs = None → completed raises cs = cs.
Proof.
  induction cs as [|c cs IH]; simpl; [done |].
  destruct (raises c); [done |]. intros H. by rewrite IH.
Qed.

Lemma first_raise_none raises cs :
  Forall (λ c, raises c = false) cs → first_raise raises cs = None.
Proof. induction 1 as [|c cs Hc _ IH]; simpl; [done |]. by rewrite Hc. Qed.

Lemma teardown_calls_teardown st :
  Forall (λ c, is_teardown c = true) (teardown_calls st).
Proof.
  unfold teardown_calls.
  destruct (wsRef st), (workletNodeRef st), (audioContextRef st),
    (streamRef st) as [[n]|];
    repeat (apply Forall_cons; split; [done |]);
    rewrite ?app_nil_l, ?app_nil_r; try done;
    by apply Forall_fmap, Forall_true.
Qed.

Lemma storage_only_teardown raises st :
  storage_only raises → first_raise raises (teardown_calls st) = None.
Proof.
  intros Hraises. apply first_raise_none.
  eapply Forall_impl; [apply teardown_calls_teardown |]. apply Hraises.
Qed.

(** A run in which no call raises is the run of [never]. *)
Lemma stopRecording_returns raises st persisted now :
  first_raise raises (save_calls ++ teardown_calls st) = None →
  run_stopRecording raises st persisted now
  = run_stopRecording never st persisted now.
Proof.
  rewrite stopRecording_never.
  destruct st as [rec tr cm me sc stt ws ctx node stream start hist].
  unfold run_stopRecording, stopRecording, save_calls, teardown_calls.
  cbn [wsRef workletNodeRef audioContextRef streamRef].
  unfold bind, call, get_home, get_stored, put_stored, modify_home, ret.
  cbn -[stop_tracks seq fmap make_sessionData].
  raise_or_go raises localStorage_getItem.
  raise_or_go raises JSON_parse.
  raise_or_go raises localStorage_setItem.
  destruct ws; cbn -[stop_tracks seq fmap make_sessionData];
    [raise_or_go raises WebSocket_close |];
    (destruct node; cbn -[stop_tracks seq fmap make_sessionData];
       [raise_or_go raises WorkletNode_disconnect |]);
    (destruct ctx; cbn -[stop_tracks seq fmap make_sessionData];
       [raise_or_go raises AudioContext_close |]);
    (destruct stream as [[n]|]; cbn -[stop_tracks seq fmap make_sessionData];
       [| done]);
    intros Hnone; rewrite stop_tracks_run, Hnone,
      (completed_no_raise _ _ Hnone); reflexivity.
Qed.

(** A run in which a storage call raises leaves the component as it was. *)
Lemma stopRecording_save_raised raises st persisted now c :
  first_raise raises save_calls = Some c →
  home (run_stopRecording raises st persisted now).1 = st.
Proof.
  unfold run_stopRecording, stopRecording, save_calls.
  unfold bind, call, get_home, get_stored, put_stored, modify_home, ret.
  cbn -[stop_tracks seq fmap make_sessionData].
  destruct (raises localStorage_getItem); [done |].
  cbn -[stop_tracks seq fmap make_sessionData].
  destruct (raises JSON_parse); [done |].
  cbn -[stop_tracks seq fmap make_sessionData].
  destruct (raises localStorage_setItem); [done |].
  intros [=].
Qed.

Lemma save_calls_not_teardown raises :
  filter (λ c, is_teardown c = true) (completed raises save_calls) = [].
Proof.
  unfold save_calls. cbn [completed].
  destruct (raises localStorage_getItem); [done |].
  destruct (raises JSON_parse); [done |].
  destruct (raises localStorage_setItem); done.
Qed.

(** C6, as the code has it: [stopRecording] first makes the three storage
    calls that save the session and then the teardown calls for the refs
    that are set, in the order socket close, worklet disconnect, audio
    context close, tracks stop. The teardown calls do not raise. If no
    storage call raises either, all teardown calls are made, the routine
    returns, the refs are cleared and the component is left not recording
    with status "Stopped". If a storage call raises, the routine ends there
    with that exception: no teardown call is made and the component is as
    it was, still recording. *)
Theorem stopRecording_teardown raises st persisted now :
  storage_only raises →
  let r := run_stopRecording raises st persisted now in
  (∀ ws node ctx n,
     wsRef st = Some ws → workletNodeRef st = Some node →
     audioContextRef st = Some ctx → streamRef st = Some {| tracks := n |} →
     teardown_calls st =
       [WebSocket_close; WorkletNode_disconnect; AudioContext_close]
       ++ (Track_stop <$> seq 0 n)) ∧
  (first_raise raises save_calls = None →
     trace r.1 = save_calls ++ teardown_calls st ∧ r.2 = Returned tt ∧
     wsRef (home r.1) = None ∧ workletNodeRef (home r.1) = None ∧
     audioContextRef (home r.1) = None ∧ streamRef (home r.1) = None ∧
     isRecording (home r.1) = false ∧ status (home r.1) = "Stopped") ∧
  (∀ c, first_raise raises save_calls = Some c →
     r.2 = Raised c ∧
     trace r.1 = completed raises save_calls ∧
     filter (λ c, is_teardown c = true) (trace r.1) = [] ∧
     home r.1 = st).
Proof.
  intros Hraises r.
  split.
  { intros ws node ctx n Hws Hnode Hctx Hstream. unfold teardown_calls.
    by rewrite Hws, Hnode, Hctx, Hstream. }
  split.
  - intros Hsave. unfold r. rewrite stopRecording_returns.
    + rewrite stopRecording_never. simpl. done.
    + by rewrite first_raise_app, Hsave, storage_only_teardown.
  - intros c Hc.
    destruct (stopRecording_run raises st persisted now) as [Htr Hout].
    fold r in Htr, Hout.
    rewrite first_raise_app, Hc in Hout.
    rewrite completed_app, Hc, app_nil_r in Htr.
    split; [done |]. split; [done |]. split.
    + rewrite Htr. apply save_calls_not_teardown.
    + by eapply stopRecording_save_raised.
Qed.

Lemma storage_only_only_setItem : storage_only (only localStorage_setItem).
Proof. intros c Hc. by destruct c. Qed.

Lemma stopRecording_teardown_witness :
  let st := handle_all initial [Start (audio_ready {| tracks := 2 |}) 0] in
  let r := run_stopRecording (only localStorage_setItem) st None 1000 in
  teardown_calls st =
    [WebSocket_close; WorkletNode_disconnect; AudioContext_close;
     Track_stop 0; Track_stop 1] ∧
  r.2 = Raised localStorage_setItem ∧ home r.1 = st.
Proof.
  intros st r.
  destruct (stopRecording_teardown (only localStorage_setItem) st None 1000
              storage_only_only_setItem) as (Hcalls & _ & Hraised).
  split.
  - apply (Hcalls the_socket the_worklet_node the_audio_context 2%nat);
      reflexivity.
  - destruct (Hraised localStorage_setItem) as (Hout & _ & _ & Hhome);
      [reflexivity | done].
Defined.

(** C6 fails as stated: when writing the session to the store raises, the
    routine ends with that exception, no teardown call is made although
    all four handles are set, and the component stays in the recording
    state. *)
Lemma stopRecording_raise_skips_teardown :
  let st := handle_all initial [Start (audio_ready {| tracks := 1 |}) 0] in
  let r := run_stopRecording (only localStorage_setItem) st None 1000 in
  teardown_calls st =
    [WebSocket_close; WorkletNode_disconnect; AudioContext_close; Track_stop 0] ∧
  r.2 = Raised localStorage_setItem ∧
  trace r.1 = [localStorage_getItem; JSON_parse] ∧
  filter (λ c, is_teardown c = true) (trace r.1) = [] ∧
  isRecording (home r.1) = true.
Proof. vm_compute. repeat split; reflexivity. Qed.

(** C1, as the code has it: the session saved by [stopRecording] carries
    the texts of all segments of the transcript joined with single spaces:
    those of the final segments in arrival order, followed by the text of
    the partial segment if one is live (there is at most one). *)
Theorem stopRecording_transcript es now persisted :
  let st := handle_all initial es in
  let sd := make_sessionData st now in
  stored (run_stopRecording never st persisted now).1
    = Some (default [] persisted ++ [sd]) ∧
  transcript sd =
    String.concat " " (map text (finals (st_transcript st))
                       ++ map text (partials (st_transcript st))) ∧
  (length (partials (st_transcript st)) ≤ 1)%nat.
Proof.
  intros st sd. split; [by rewrite stopRecording_never |].
  pose proof (reachable_settled es) as Hst. fold st in Hst.
  split; [| by apply settled_partials].
  unfold sd, make_sessionData, join_texts. cbn [transcript].
  rewrite (settled_split _ Hst) at 1. by rewrite map_app.
Qed.

(** C1 fails as stated: with a final "hello" and a live partial "wor" at
    stop time, the saved transcript is "hello wor", not the final text
    "hello". *)
Lemma saved_transcript_keeps_partial :
  let st := handle_all initial
              [Start (audio_ready {| tracks := 1 |}) 0;
               Message (text_message "final" "hello" None) 10;
               Message (text_message "partial" "wor" None) 20] in
  let sd := make_sessionData st 30 in
  partials (st_transcript st) = [ {| text := "wor"; type := partial; timestamp := 20 |} ] ∧
  transcript sd = "hello wor" ∧
  join_texts (finals (st_transcript st)) = "hello" ∧
  transcript sd ≠ join_texts (finals (st_transcript st)).
Proof. vm_compute. repeat split; try reflexivity. discriminate. Qed.

End StopRecording.

(** ** audio-processor.js: framing *)

Section Encoder.
Import AudioProcessor.

Lemma holds_constructor : holds constructor [].
Proof. repeat split. unfold constructor; cbn [bufferSize length]. lia. Qed.

Lemma push_sample_spec st p x :
  holds st p →
  (S (length p) < bufferSize st)%nat ∧
    (push_sample st x).2 = [] ∧
    holds (push_sample st x).1 (p ++ [x]) ∧
    bufferSize (push_sample st x).1 = bufferSize st
  ∨
  S (length p) = bufferSize st ∧
    (push_sample st x).2 = audio_messages [p ++ [x]] ∧
    holds (push_sample st x).1 [] ∧
    bufferSize (push_sample st x).1 = bufferSize st.
Proof.
  intros (Hidx & Hbuf & Hlt).
  assert (<[bufferIndex st := x]> (buffer st)
          = (p ++ [x]) ++ replicate (bufferSize st - S (length p)) zero) as Hins.
  { rewrite Hidx, Hbuf.
    rewrite insert_app_r_alt by lia. rewrite Nat.sub_diag.
    replace (bufferSize st - length p)%nat
      with (S (bufferSize st - S (length p))) by lia.
    simpl. by rewrite <- (assoc_L (++)). }
  unfold push_sample. rewrite Hins, Hidx.
  destruct (decide (S (length p) < bufferSize st)%nat) as [Hroom | Hfull].
  - left. rewrite (proj2 (Nat.leb_gt _ _)) by lia. cbn [fst snd].
    split; [done |]. split; [done |]. split; [| done].
    unfold holds; cbn [bufferIndex buffer bufferSize].
    rewrite length_app; simpl. repeat split; [lia | | lia].
    do 2 f_equal. lia.
  - right. assert (S (length p) = bufferSize st) as Heq by lia.
    rewrite (proj2 (Nat.leb_le _ _)) by lia. cbn [fst snd].
    split; [done |]. split.
    + unfold audio_messages. simpl. rewrite <- Heq, Nat.sub_diag.
      simpl. by rewrite app_nil_r.
    + split; [| done]. unfold holds; cbn [bufferIndex buffer bufferSize].
      unfold new_Float32Array. simpl. rewrite Nat.sub_0_r.
      repeat split. lia.
Qed.

Lemma process_channel_spec xs : ∀ st p,
  holds st p →
  ∃ fs p',
    (process_channel st xs).2 = audio_messages fs ∧
    holds (process_channel st xs).1 p' ∧
    bufferSize (process_channel st xs).1 = bufferSize st ∧
    Forall (λ f, length f = bufferSize st) fs ∧
    p ++ xs = concat fs ++ p'.
Proof.
  induction xs as [|x xs IH]; intros st p Hst.
  - exists [], p. simpl. by rewrite app_nil_r.
  - cbn [process_channel].
    destruct (push_sample_spec st p x Hst)
      as [(Hroom & Hout & Hst1 & Hsize) | (Hfull & Hout & Hst1 & Hsize)];
      destruct (push_sample st x) as [st1 out1]; cbn [fst snd] in *;
      destruct (IH st1 _ Hst1) as (fs & p' & Hout2 & Hst2 & Hsize2 & Hfs & Hcat);
      destruct (process_channel st1 xs) as [st2 out2]; cbn [fst snd] in *;
      subst out1 out2.
    + exists fs, p'. rewrite Hsize in *.
      repeat split; try done; try apply Hst2.
      by rewrite <- Hcat, <- (assoc_L (++)).
    + exists ((p ++ [x]) :: fs), p'. rewrite Hsize in *.
      repeat split; try done; try apply Hst2.
      * constructor; [| done]. rewrite length_app. simpl. lia.
      * simpl in Hcat. cbn [concat]. rewrite <- !(assoc_L (++)). simpl.
        by rewrite Hcat.
Qed.

Lemma audio_messages_app fs1 fs2 :
  audio_messages (fs1 ++ fs2) = audio_messages fs1 ++ audio_messages fs2.
Proof. apply fmap_app. Qed.

Lemma run_spec callbacks : ∀ st p,
  Forall (λ inputs, inputs ≠ []) callbacks →
  holds st p →
  ∃ st' fs p',
    run st callbacks = Some (st', audio_messages fs) ∧
    holds st' p' ∧
    bufferSize st' = bufferSize st ∧
    Forall (λ f, length f = bufferSize st) fs ∧
    p ++ total_samples callbacks = concat fs ++ p'.
Proof.
  induction callbacks as [|inputs rest IH]; intros st p Hne Hst.
  - exists st, [], p. simpl. by rewrite app_nil_r.
  - apply Forall_cons in Hne as [Hin Hrest].
    destruct inputs as [|input others]; [done |].
    assert (∃ st1 fs1 p1,
      process st (input :: others) = Some (st1, audio_messages fs1, true) ∧
      holds st1 p1 ∧ bufferSize st1 = bufferSize st ∧
      Forall (λ f, length f = bufferSize st) fs1 ∧
      p ++ callback_samples (input :: others) = concat fs1 ++ p1)
      as (st1 & fs1 & p1 & Hproc & Hst1 & Hsize1 & Hfs1 & Hcat1).
    { destruct input as [|inputChannel channels]; simpl.
      - exists st, [], p. by rewrite app_nil_r.
      - destruct (process_channel_spec inputChannel st p Hst)
          as (fs & p' & Hout & Hst' & Hsize & Hfs & Hcat).
        destruct (process_channel st inputChannel) as [st' out];
          cbn [fst snd] in *; subst out.
        by exists st', fs, p'. }
    destruct (IH st1 p1 Hrest Hst1) as (st2 & fs2 & p2 & Hrun & Hst2 & Hsize2 & Hfs2 & Hcat2).
    exists st2, (fs1 ++ fs2), p2.
    cbn [run]. rewrite Hproc, Hrun, audio_messages_app.
    rewrite Hsize1 in *.
    repeat split; try done; try apply Hst2.
    + by apply Forall_app.
    + unfold total_samples in *. cbn [map concat].
      rewrite concat_app, (assoc_L (++)), Hcat1, <- !(assoc_L (++)).
      by rewrite Hcat2.
Qed.

Lemma length_concat_uniform (n : nat) (fs : list (list float)) :
  Forall (λ f, length f = n) fs → length (concat fs) = (n * length fs)%nat.
Proof.
  induction 1 as [|f fs Hf _ IH]; simpl; [lia |].
  rewrite length_app, IH, Hf. lia.
Qed.

Lemma floatTo16BitPCM_concat fs :
  floatTo16BitPCM (concat fs) = concat (msg_data <$> audio_messages fs).
Proof.
  induction fs as [|f fs IH]; simpl; [done |].
  unfold floatTo16BitPCM in *. by rewrite map_app, IH.
Qed.

(** C3: for every run of callbacks (each carrying its input 0, with or
    without a channel, with or without samples) started from a freshly
    constructed processor, the run completes; it posts exactly
    floor(total / 4096) messages, all of type audio and of exactly 4096 PCM
    samples; the posted samples are, in order, the conversion of the first
    4096 * floor(total / 4096) input samples, so none is lost or repeated;
    and the accumulator is left holding only the remaining total mod 4096
    samples, the rest of it being zero. *)
Theorem encoder_emits_full_frames callbacks :
  Forall (λ inputs, inputs ≠ []) callbacks →
  let samples := total_samples callbacks in
  let n := (length samples / 4096)%nat in
  ∃ st' out,
    run constructor callbacks = Some (st', out) ∧
    length out = n ∧
    Forall (λ m, msg_type m = "audio" ∧ length (msg_data m) = 4096%nat) out ∧
    concat (msg_data <$> out) = floatTo16BitPCM (take (4096 * n) samples) ∧
    bufferIndex st' = (length samples mod 4096)%nat ∧
    buffer st' = drop (4096 * n) samples
                 ++ replicate (4096 - length samples mod 4096) zero.
Proof.
  intros Hne samples n.
  destruct (run_spec callbacks constructor [] Hne holds_constructor)
    as (st' & fs & p' & Hrun & (Hidx & Hbuf & Hlt) & Hsize & Hfs & Hcat).
  change (bufferSize constructor) with 4096%nat in *.
  rewrite Hsize in *. cbn [app] in Hcat. fold samples in Hcat.
  subst n. set (N := 4096%nat) in *. clearbody N.
  set (n := (length samples / N)%nat).
  pose proof (length_concat_uniform N fs Hfs) as Hlen.
  assert (length samples = N * length fs + length p')%nat as Htotal
    by (by rewrite Hcat, length_app, Hlen).
  assert (length fs = n) as Hn
    by (unfold n; apply (Nat.div_unique _ _ _ (length p')); [lia | done]).
  assert (length p' = length samples mod N)%nat as Hmod
    by (apply (Nat.mod_unique _ _ (length fs)); [lia | done]).
  exists st', (audio_messages fs). split; [done |].
  split; [by unfold audio_messages; rewrite length_fmap |].
  split.
  { unfold audio_messages. apply Forall_fmap.
    eapply Forall_impl; [exact Hfs |]. intros f Hf. simpl.
    split; [done |]. unfold floatTo16BitPCM. by rewrite length_map. }
  split.
  { rewrite <- floatTo16BitPCM_concat. f_equal.
    rewrite Hcat, <- Hn, <- Hlen. by rewrite take_app_length. }
  split; [by rewrite Hidx |].
  rewrite Hbuf, <- Hmod. f_equal.
  rewrite Hcat, <- Hn, <- Hlen. by rewrite drop_app_length.
Qed.

Lemma encoder_emits_full_frames_witness :
  let callbacks :=
    [block (replicate 4000 0.5%float); no_channel; block [];
     block (replicate 200 (-2)%float)] in
  let samples := total_samples callbacks in
  let n := (length samples / 4096)%nat in
  ∃ st' out,
    run constructor callbacks = Some (st', out) ∧
    length out = n ∧
    Forall (λ m, msg_type m = "audio" ∧ length (msg_data m) = 4096%nat) out ∧
    concat (msg_data <$> out) = floatTo16BitPCM (take (4096 * n) samples) ∧
    bufferIndex st' = (length samples mod 4096)%nat ∧
    buffer st' = drop (4096 * n) samples
                 ++ replicate (4096 - length samples mod 4096) zero.
Proof.
  intros callbacks. apply (encoder_emits_full_frames callbacks).
  unfold callbacks, block, no_channel.
  repeat (apply List.Forall_cons; [discriminate |]). apply List.Forall_nil.
Defined.

(** The run of the witness, evaluated: one frame is posted and 104 samples
    stay in the accumulator. *)
Example encoder_run_evaluated :
  match run constructor
          [block (replicate 4000 0.5%float); no_channel; block [];
           block (replicate 200 (-2)%float)] with
  | Some (st', out) =>
      (msg_data <$> out) = [replicate 4000 16383 ++ replicate 96 (-32768)] ∧
      bufferIndex st' = 104%nat ∧
      buffer st' = replicate 104 (-2)%float ++ replicate 3992 zero
  | None => False
  end.
Proof. vm_compute. repeat split; reflexivity. Qed.

End Encoder.

(** ** audio-processor.js: PCM conversion *)

Section PCM.
Import JS AudioProcessor.

(** Comparison of binary64 values, through their specification. *)

Lemma SFcompare_antisym X Y :
  SFcompare Y X = option_map CompOpp (SFcompare X Y).
Proof.
  destruct X as [[]| [] | | [] mx ex], Y as [[]| [] | | [] my ey];
    simpl; try reflexivity;
    rewrite (Z.compare_antisym ex ey);
    destruct (ex ?= ey)%Z; simpl; try reflexivity;
    change (Pos.compare_cont Eq my mx) with (my ?= mx)%positive;
    change (Pos.compare_cont Eq mx my) with (mx ?= my)%positive;
    rewrite (Pos.compare_antisym mx my);
    by destruct (mx ?= my)%positive.
Qed.

Lemma SFcompare_refl X : X ≠ S754_nan → SFcompare X X = Some Eq.
Proof.
  destruct X as [[]| [] | | [] m e]; simpl; try done;
    intros _; rewrite Z.compare_refl; fold (Pos.compare m m);
    by rewrite Pos.compare_refl.
Qed.

Lemma SFcompare_eq_finite X s m e :
  SFcompare X (S754_finite s m e) = Some Eq → X = S754_finite s m e.
Proof.
  destruct X as [[]| [] | | sx mx ex]; simpl; try (by destruct s).
  destruct sx, s; try done; intros [= H];
    destruct (ex ?= e)%Z eqn:He; try done;
    apply Z.compare_eq in He; subst ex;
    fold (Pos.compare mx m) in H;
    destruct (mx ?= m)%positive eqn:Hm; try done;
    apply Pos.compare_eq in Hm; by subst mx.
Qed.

Lemma SFcompare_some_not_nan X Y c :
  SFcompare X Y = Some c → X ≠ S754_nan ∧ Y ≠ S754_nan.
Proof. destruct X, Y; simpl; try done. Qed.

Lemma SFcompare_none X Y :
  SFcompare X Y = None → X = S754_nan ∨ Y = S754_nan.
Proof. destruct X, Y; simpl; try done; auto. Qed.

Lemma is_nan_spec x : is_nan x = true ↔ Prim2SF x = S754_nan.
Proof.
  unfold is_nan. rewrite FloatAxioms.eqb_spec. unfold SFeqb. split.
  - intros H.
    destruct (Prim2SF x) as [s | s | | s m e]; [ | | done | ];
      rewrite SFcompare_refl in H by done; done.
  - by intros ->.
Qed.

Lemma is_nan_false x : Prim2SF x ≠ S754_nan → is_nan x = false.
Proof.
  intros H. destruct (is_nan x) eqn:Hx; [| done].
  by apply is_nan_spec in Hx.
Qed.

Lemma is_nan_eq x : is_nan x = true → x = nan.
Proof. intros H. apply Prim2SF_inj. by apply is_nan_spec in H as ->. Qed.

(** The outcome of comparing two numbers, as the facts the code tests. *)
Lemma float_compare x y :
  match SFcompare (Prim2SF x) (Prim2SF y) with
  | None =>
      is_nan x || is_nan y = true ∧
      PrimFloat.ltb x y = false ∧ PrimFloat.ltb y x = false ∧
      PrimFloat.leb x y = false ∧ PrimFloat.leb y x = false
  | Some Lt =>
      is_nan x = false ∧ is_nan y = false ∧
      PrimFloat.ltb x y = true ∧ PrimFloat.ltb y x = false ∧
      PrimFloat.leb x y = true ∧ PrimFloat.leb y x = false
  | Some Eq =>
      is_nan x = false ∧ is_nan y = false ∧
      PrimFloat.ltb x y = false ∧ PrimFloat.ltb y x = false ∧
      PrimFloat.leb x y = true ∧ PrimFloat.leb y x = true
  | Some Gt =>
      is_nan x = false ∧ is_nan y = false ∧
      PrimFloat.ltb x y = false ∧ PrimFloat.ltb y x = true ∧
      PrimFloat.leb x y = false ∧ PrimFloat.leb y x = true
  end.
Proof.
  rewrite !FloatAxioms.ltb_spec, !FloatAxioms.leb_spec. unfold SFltb, SFleb.
  rewrite (SFcompare_antisym (Prim2SF x) (Prim2SF y)).
  destruct (SFcompare (Prim2SF x) (Prim2SF y)) as [c|] eqn:Hc.
  - apply SFcompare_some_not_nan in Hc as [Hx Hy].
    rewrite (is_nan_false x Hx), (is_nan_false y Hy). by destruct c.
  - simpl. split; [| done].
    apply SFcompare_none in Hc as [Hx | Hy].
    + by rewrite (proj2 (is_nan_spec x) Hx).
    + rewrite (proj2 (is_nan_spec y) Hy). by rewrite orb_true_r.
Qed.

Lemma Prim2SF_one : Prim2SF 1 = S754_finite false 4503599627370496 (-52).
Proof. reflexivity. Qed.

Lemma Prim2SF_minus_one : Prim2SF (-1) = S754_finite true 4503599627370496 (-52).
Proof. reflexivity. Qed.

(** A number that compares equal to 1 (or to -1) is that number. *)
Lemma compare_eq_one x : SFcompare (Prim2SF 1) (Prim2SF x) = Some Eq → x = 1%float.
Proof.
  intros H. apply Prim2SF_inj. rewrite Prim2SF_one in *.
  apply SFcompare_eq_finite. by rewrite SFcompare_antisym, H.
Qed.

Lemma compare_eq_minus_one x :
  SFcompare (Prim2SF (-1)) (Prim2SF x) = Some Eq → x = (-1)%float.
Proof.
  intros H. apply Prim2SF_inj. rewrite Prim2SF_minus_one in *.
  apply SFcompare_eq_finite. by rewrite SFcompare_antisym, H.
Qed.

(** Nothing at or below -1 is above 1. *)
Lemma below_minus_one_not_above_one x :
  PrimFloat.leb x (-1) = true → PrimFloat.ltb 1 x = false.
Proof.
  rewrite FloatAxioms.leb_spec, FloatAxioms.ltb_spec, Prim2SF_one, Prim2SF_minus_one.
  unfold SFleb, SFltb.
  destruct (Prim2SF x) as [[] | [] | | [] m e]; cbn [SFcompare];
    try reflexivity; discriminate.
Qed.

(** [Math.min(1, x)] and [Math.max(-1, y)] by cases. *)
Lemma Math_min_one x :
  Math_min 1 x =
    if is_nan x then nan else if PrimFloat.ltb 1 x then 1%float else x.
Proof.
  unfold Math_min. change (is_nan 1) with false. cbn [orb].
  destruct (is_nan x); [done |]. destruct (PrimFloat.ltb 1 x); [done |].
  destruct (PrimFloat.ltb x 1); [done |]. by change (get_sign 1) with false.
Qed.

Lemma Math_max_minus_one y :
  Math_max (-1) y =
    if is_nan y then nan
    else if PrimFloat.ltb (-1) y then y
    else if PrimFloat.ltb y (-1) then (-1)%float else y.
Proof.
  unfold Math_max. change (is_nan (-1)) with false. cbn [orb].
  destruct (is_nan y); [done |]. destruct (PrimFloat.ltb (-1) y); [done |].
  destruct (PrimFloat.ltb y (-1)); [done |]. by change (get_sign (-1)) with true.
Qed.

Lemma clamp_high x : PrimFloat.leb 1 x = true → clamp x = 1%float.
Proof.
  intros Hle. unfold clamp. rewrite Math_min_one.
  pose proof (float_compare 1 x) as H.
  destruct (SFcompare (Prim2SF 1) (Prim2SF x)) as [[]|] eqn:Hc.
  - apply compare_eq_one in Hc. subst x. reflexivity.
  - destruct H as (_ & -> & -> & _). reflexivity.
  - destruct H as (_ & _ & _ & _ & H & _). congruence.
  - destruct H as (_ & _ & _ & H & _). congruence.
Qed.

Lemma clamp_low x : PrimFloat.leb x (-1) = true → clamp x = (-1)%float.
Proof.
  intros Hle. unfold clamp. rewrite Math_min_one.
  rewrite (below_minus_one_not_above_one x Hle).
  pose proof (float_compare (-1) x) as H.
  destruct (SFcompare (Prim2SF (-1)) (Prim2SF x)) as [[]|] eqn:Hc.
  - apply compare_eq_minus_one in Hc. subst x. reflexivity.
  - destruct H as (_ & _ & _ & _ & _ & H). congruence.
  - destruct H as (_ & Hn & Hlt & Hgt & _). rewrite Hn, Math_max_minus_one, Hn, Hlt, Hgt.
    reflexivity.
  - destruct H as (_ & _ & _ & _ & H). congruence.
Qed.

Lemma clamp_mid x :
  PrimFloat.leb (-1) x = true → PrimFloat.leb x 1 = true → clamp x = x.
Proof.
  intros Hlo Hhi. unfold clamp. rewrite Math_min_one.
  pose proof (float_compare 1 x) as H1.
  pose proof (float_compare (-1) x) as H2.
  assert (is_nan x = false ∧ PrimFloat.ltb 1 x = false) as [Hn Hgt].
  { destruct (SFcompare (Prim2SF 1) (Prim2SF x)) as [[]|].
    - by destruct H1 as (_ & ? & ? & _).
    - destruct H1 as (_ & _ & _ & _ & _ & H). congruence.
    - by destruct H1 as (_ & ? & ? & _).
    - destruct H1 as (_ & _ & _ & _ & H). congruence. }
  rewrite Hn, Hgt, Math_max_minus_one, Hn.
  destruct (PrimFloat.ltb (-1) x); [done |].
  destruct (SFcompare (Prim2SF (-1)) (Prim2SF x)) as [[]|].
  - by destruct H2 as (_ & _ & _ & -> & _).
  - by destruct H2 as (_ & _ & _ & -> & _).
  - destruct H2 as (_ & _ & _ & _ & H & _). congruence.
  - destruct H2 as (_ & _ & _ & H & _). congruence.
Qed.

Lemma clamp_nan : clamp nan = nan.
Proof. reflexivity. Qed.

(** Every number is NaN, at least 1, at most -1, or in between. *)
Lemma float_cases x :
  is_nan x = true ∨ PrimFloat.leb 1 x = true ∨ PrimFloat.leb x (-1) = true ∨
  (PrimFloat.leb (-1) x = true ∧ PrimFloat.leb x 1 = true).
Proof.
  pose proof (float_compare 1 x) as H1.
  pose proof (float_compare (-1) x) as H2.
  destruct (SFcompare (Prim2SF 1) (Prim2SF x)) as [[]|].
  - right; left. by destruct H1 as (_ & _ & _ & _ & ? & _).
  - right; left. by destruct H1 as (_ & _ & _ & _ & ? & _).
  - destruct H1 as (_ & _ & _ & _ & _ & Hhi).
    destruct (SFcompare (Prim2SF (-1)) (Prim2SF x)) as [[]|].
    + right; right; left. by destruct H2 as (_ & _ & _ & _ & _ & ?).
    + right; right; right. by destruct H2 as (_ & _ & _ & _ & ? & _).
    + right; right; left. by destruct H2 as (_ & _ & _ & _ & _ & ?).
    + destruct H2 as (H2 & _). by left.
  - destruct H1 as (H1 & _). by left.
Qed.

Lemma clamp_range x :
  is_nan x = false →
  PrimFloat.leb (-1) (clamp x) = true ∧ PrimFloat.leb (clamp x) 1 = true.
Proof.
  intros Hn.
  destruct (float_cases x) as [H | [H | [H | [Hlo Hhi]]]].
  - congruence.
  - rewrite (clamp_high x H). by split.
  - rewrite (clamp_low x H). by split.
  - rewrite (clamp_mid x Hlo Hhi). by split.
Qed.

Lemma ToInt16_range f : -32768 ≤ ToInt16 f ≤ 32767.
Proof.
  unfold ToInt16.
  pose proof (Z.mod_pos_bound (truncate f) 65536 eq_refl) as Hb.
  destruct (32768 <=? truncate f mod 65536) eqn:Hc.
  - apply Z.leb_le in Hc. lia.
  - apply Z.leb_gt in Hc. lia.
Qed.

Lemma nonneg_not_negative s :
  PrimFloat.leb 0 s = true → PrimFloat.ltb s 0 = false.
Proof.
  intros Hle. pose proof (float_compare 0 s) as H.
  destruct (SFcompare (Prim2SF 0) (Prim2SF s)) as [[]|].
  - by destruct H as (_ & _ & _ & ? & _).
  - by destruct H as (_ & _ & _ & ? & _).
  - destruct H as (_ & _ & _ & _ & H & _). congruence.
  - destruct H as (_ & _ & _ & H & _). congruence.
Qed.

Lemma pcm_sample_nan x : is_nan x = true → pcm_sample x = 0.
Proof. intros H. apply is_nan_eq in H. subst x. reflexivity. Qed.

(** C2, as the code has it: the conversion is a function applied to each
    element on its own and keeps the length. An input that is not NaN is
    clamped to [-1, 1]: an input of at least 1 becomes 1 and encodes to
    32767, an input of at most -1 becomes -1 and encodes to -32768, an
    input in between is kept. A negative clamped value s is stored as the
    16-bit signed integer of s * 32768, a non-negative one as that of
    s * 32767. A NaN input is stored as 0. Every result lies in
    [-32768, 32767]; 1.5 encodes to 32767 and -2.0 to -32768. *)
Theorem floatTo16BitPCM_spec (float32Array : list float) :
  length (floatTo16BitPCM float32Array) = length float32Array ∧
  (∀ i, floatTo16BitPCM float32Array !! i = pcm_sample <$> float32Array !! i) ∧
  (∀ x,
     (is_nan x = false →
        PrimFloat.leb (-1) (clamp x) = true ∧ PrimFloat.leb (clamp x) 1 = true) ∧
     (PrimFloat.leb 1 x = true → clamp x = 1%float ∧ pcm_sample x = 32767) ∧
     (PrimFloat.leb x (-1) = true → clamp x = (-1)%float ∧ pcm_sample x = -32768) ∧
     (PrimFloat.leb (-1) x = true → PrimFloat.leb x 1 = true → clamp x = x) ∧
     (PrimFloat.ltb (clamp x) 0 = true →
        pcm_sample x = ToInt16 (PrimFloat.mul (clamp x) 32768)) ∧
     (PrimFloat.leb 0 (clamp x) = true →
        pcm_sample x = ToInt16 (PrimFloat.mul (clamp x) 32767)) ∧
     (is_nan x = true → pcm_sample x = 0) ∧
     -32768 ≤ pcm_sample x ≤ 32767) ∧
  pcm_sample 1.5 = 32767 ∧ pcm_sample (-2) = -32768.
Proof.
  split; [apply length_map |].
  split; [intros i; apply list_lookup_fmap |].
  split; [| by split].
  intros x.
  split; [apply clamp_range |].
  split.
  { intros H. split; [by apply clamp_high |].
    unfold pcm_sample, scaled. by rewrite (clamp_high x H). }
  split.
  { intros H. split; [by apply clamp_low |].
    unfold pcm_sample, scaled. by rewrite (clamp_low x H). }
  split; [apply clamp_mid |].
  split.
  { intros H. unfold pcm_sample, scaled. cbv zeta. by rewrite H. }
  split.
  { intros H. unfold pcm_sample, scaled. cbv zeta.
    by rewrite (nonneg_not_negative _ H). }
  split; [apply pcm_sample_nan |].
  apply ToInt16_range.
Qed.

Lemma floatTo16BitPCM_spec_witness :
  (clamp 0.25 = 0.25%float ∧ pcm_sample 0.25 = ToInt16 (PrimFloat.mul (clamp 0.25) 32767)) ∧
  (clamp 7 = 1%float ∧ pcm_sample 7 = 32767) ∧
  (clamp (-1.25) = (-1)%float ∧ pcm_sample (-1.25) = -32768).
Proof.
  destruct (floatTo16BitPCM_spec [0.25; 7; -1.25]%float) as (_ & _ & Hx & _).
  split; [| split].
  - destruct (Hx 0.25%float) as (_ & _ & _ & Hmid & _ & Hpos & _).
    split; [apply Hmid; reflexivity | apply Hpos; reflexivity].
  - destruct (Hx 7%float) as (_ & Hhigh & _). apply Hhigh. reflexivity.
  - destruct (Hx (-1.25)%float) as (_ & _ & Hlow & _). apply Hlow. reflexivity.
Defined.

(** C2 fails as stated for a NaN sample: the clamp leaves it NaN, which is
    not within [-1, 1], and the stored value is 0. *)
Lemma clamp_nan_outside_range :
  clamp nan = nan ∧
  PrimFloat.leb (-1) (clamp nan) = false ∧
  PrimFloat.leb (clamp nan) 1 = false ∧
  floatTo16BitPCM [nan] = [0].
Proof. repeat split; reflexivity. Qed.

(** Values inside the range, evaluated. *)
Example pcm_sample_evaluated :
  floatTo16BitPCM [0; 0.5; -0.5; 1; -1; 0.999; neg_zero; infinity; neg_infinity]%float
  = [0; 16383; -16384; 32767; -32768; 32734; 0; 32767; -32768].
Proof. vm_compute. reflexivity. Qed.

End PCM.

(** ** Order of binary64 values *)

Section FloatOrder.

Ltac split_compare :=
  repeat match goal with
  | H : context [Pos.compare_cont Eq ?a ?b] |- _ =>
      change (Pos.compare_cont Eq a b) with (Pos.compare a b) in H
  | |- context [Pos.compare_cont Eq ?a ?b] =>
      change (Pos.compare_cont Eq a b) with (Pos.compare a b)
  end;
  repeat match goal with
  | H : context [(?a ?= ?b)%Z] |- _ => destruct (Z.compare_spec a b); subst
  | |- context [(?a ?= ?b)%Z] => destruct (Z.compare_spec a b); subst
  | H : context [(?a ?= ?b)%positive] |- _ => destruct (Pos.compare_spec a b); subst
  | |- context [(?a ?= ?b)%positive] => destruct (Pos.compare_spec a b); subst
  end;
  cbn [CompOpp] in *; try discriminate; try reflexivity; try lia.

Lemma SFcompare_lt_trans X Y Z :
  SFcompare X Y = Some Lt → SFcompare Y Z = Some Lt → SFcompare X Z = Some Lt.
Proof.
  destruct X as [[]|[]| |[] mx ex], Y as [[]|[]| |[] my ey], Z as [[]|[]| |[] mz ez];
    cbn [SFcompare]; try discriminate; try reflexivity;
    intros H1 H2; injection H1 as H1; injection H2 as H2; f_equal;
    split_compare.
Qed.

Lemma SFcompare_eq_compat X Y Z :
  SFcompare X Y = Some Eq → SFcompare X Z = SFcompare Y Z.
Proof.
  destruct X as [[]|[]| |[] mx ex], Y as [[]|[]| |[] my ey], Z as [[]|[]| |[] mz ez];
    cbn [SFcompare]; try discriminate; try reflexivity;
    intros H1; injection H1 as H1; try f_equal;
    split_compare.
Qed.

Lemma ltb_compare x y :
  PrimFloat.ltb x y = true ↔ SFcompare (Prim2SF x) (Prim2SF y) = Some Lt.
Proof.
  rewrite FloatAxioms.ltb_spec. unfold SFltb.
  destruct (SFcompare (Prim2SF x) (Prim2SF y)) as [[]|]; split; congruence.
Qed.

Lemma leb_compare x y :
  PrimFloat.leb x y = true ↔
  SFcompare (Prim2SF x) (Prim2SF y) = Some Lt ∨
  SFcompare (Prim2SF x) (Prim2SF y) = Some Eq.
Proof.
  rewrite FloatAxioms.leb_spec. unfold SFleb.
  destruct (SFcompare (Prim2SF x) (Prim2SF y)) as [[]|]; split;
    intros; try congruence; auto; by destruct H.
Qed.

Lemma ltb_trans x y z :
  PrimFloat.ltb x y = true → PrimFloat.ltb y z = true → PrimFloat.ltb x z = true.
Proof. rewrite !ltb_compare. apply SFcompare_lt_trans. Qed.

Lemma leb_ltb_trans x y z :
  PrimFloat.leb x y = true → PrimFloat.ltb y z = true → PrimFloat.ltb x z = true.
Proof.
  rewrite leb_compare, !ltb_compare. intros [Hlt | Heq] Hyz.
  - by eapply SFcompare_lt_trans.
  - by rewrite (SFcompare_eq_compat _ _ _ Heq).
Qed.

(** For numbers that are not NaN, "not less" is "at least". *)
Lemma not_ltb_leb x y :
  is_nan x = false → is_nan y = false →
  PrimFloat.ltb x y = false → PrimFloat.leb y x = true.
Proof.
  intros Hx Hy Hlt. pose proof (float_compare x y) as H.
  destruct (SFcompare (Prim2SF x) (Prim2SF y)) as [[]|].
  - by destruct H as (_ & _ & _ & _ & _ & ?).
  - destruct H as (_ & _ & ? & _). congruence.
  - by destruct H as (_ & _ & _ & _ & _ & ?).
  - destruct H as (H & _). rewrite Hx, Hy in H. done.
Qed.

Lemma leb_not_ltb x y : PrimFloat.leb y x = true → PrimFloat.ltb x y = false.
Proof.
  intros Hle. pose proof (float_compare x y) as H.
  destruct (SFcompare (Prim2SF x) (Prim2SF y)) as [[]|].
  - by destruct H as (_ & _ & ? & _).
  - destruct H as (_ & _ & _ & _ & _ & ?). congruence.
  - by destruct H as (_ & _ & ? & _).
  - by destruct H as (_ & ? & _).
Qed.

Lemma ltb_not_nan x y :
  PrimFloat.ltb x y = true → is_nan x = false ∧ is_nan y = false.
Proof.
  intros Hlt. pose proof (float_compare x y) as H.
  destruct (SFcompare (Prim2SF x) (Prim2SF y)) as [[]|].
  - destruct H as (_ & _ & ? & _). congruence.
  - by destruct H as (? & ? & _).
  - destruct H as (_ & _ & ? & _). congruence.
  - destruct H as (_ & ? & _). congruence.
Qed.

Lemma leb_not_nan x y :
  PrimFloat.leb x y = true → is_nan x = false ∧ is_nan y = false.
Proof.
  intros Hle. pose proof (float_compare x y) as H.
  destruct (SFcompare (Prim2SF x) (Prim2SF y)) as [[]|].
  - by destruct H as (? & ? & _).
  - by destruct H as (? & ? & _).
  - destruct H as (_ & _ & _ & _ & ? & _). congruence.
  - destruct H as (_ & _ & _ & ? & _). congruence.
Qed.

Lemma nan_not_ltb x y : is_nan x = true → PrimFloat.ltb x y = false.
Proof.
  intros Hx. destruct (PrimFloat.ltb x y) eqn:Hlt; [| done].
  apply ltb_not_nan in Hlt as [? _]. congruence.
Qed.

End FloatOrder.

(** ** MetricsDisplay.tsx *)

Section MetricsPanel.
Import MetricsDisplay.

Lemma severity_le_2 v thresholds : (severity (getStatusColor v thresholds) ≤ 2)%nat.
Proof.
  unfold getStatusColor.
  destruct (less_than v (thresholds !! 0%nat)); [vm_compute; lia |].
  destruct (less_than v (thresholds !! 1%nat)); vm_compute; lia.
Qed.

Lemma less_than_mono v w t :
  PrimFloat.leb v w = true → less_than w t = true → less_than v t = true.
Proof. destruct t as [t|]; simpl; [apply leb_ltb_trans | done]. Qed.

(** X1: a reading that is not larger never gets a more alarming colour,
    whatever the thresholds are. *)
Theorem getStatusColor_monotone v w thresholds :
  PrimFloat.leb v w = true →
  (severity (getStatusColor v thresholds) ≤ severity (getStatusColor w thresholds))%nat.
Proof.
  intros Hle. unfold getStatusColor.
  destruct (less_than w (thresholds !! 0%nat)) eqn:Hw0.
  { by rewrite (less_than_mono v w _ Hle Hw0). }
  destruct (less_than v (thresholds !! 0%nat)); [vm_compute; lia |].
  destruct (less_than w (thresholds !! 1%nat)) eqn:Hw1.
  { by rewrite (less_than_mono v w _ Hle Hw1). }
  destruct (less_than v (thresholds !! 1%nat)); vm_compute; lia.
Qed.

Lemma getStatusColor_monotone_witness :
  (severity (getStatusColor 42.5 [50; 80]%float)
   ≤ severity (getStatusColor 79 [50; 80]%float))%nat.
Proof. apply getStatusColor_monotone. reflexivity. Defined.

Lemma leb_negb_ltb x y :
  is_nan x = false → is_nan y = false →
  PrimFloat.leb y x = negb (PrimFloat.ltb x y).
Proof.
  intros Hx Hy. destruct (PrimFloat.ltb x y) eqn:Hlt; simpl.
  - destruct (PrimFloat.leb y x) eqn:Hle; [| done].
    apply leb_not_ltb in Hle. congruence.
  - by apply not_ltb_leb.
Qed.

Lemma leb_nan_r x y : is_nan y = true → PrimFloat.leb x y = false.
Proof.
  intros Hy. destruct (PrimFloat.leb x y) eqn:Hle; [| done].
  apply leb_not_nan in Hle as [_ ?]. congruence.
Qed.

(** X2: the four RTF labels are the four ranges below 0.5, from 0.5 to
    below 1, from 1 to below 1.5, and from 1.5 on, where NaN counts as
    Slow; the colour is green exactly when the RTF is below 1, which is
    when the panel says "Faster than real-time". *)
Theorem getRTFStatus_tiers rtf :
  (label (getRTFStatus rtf) = "Excellent" ↔ PrimFloat.ltb rtf 0.5 = true) ∧
  (label (getRTFStatus rtf) = "Real-time" ↔
     PrimFloat.leb 0.5 rtf = true ∧ PrimFloat.ltb rtf 1 = true) ∧
  (label (getRTFStatus rtf) = "Acceptable" ↔
     PrimFloat.leb 1 rtf = true ∧ PrimFloat.ltb rtf 1.5 = true) ∧
  (label (getRTFStatus rtf) = "Slow" ↔
     PrimFloat.leb 1.5 rtf = true ∨ is_nan rtf = true) ∧
  (color (getRTFStatus rtf) = "text-green-400" ↔ PrimFloat.ltb rtf 1 = true).
Proof.
  assert (PrimFloat.ltb rtf 0.5 = true → PrimFloat.ltb rtf 1 = true) as H01
    by (intros H; by apply (ltb_trans rtf 0.5 1)).
  assert (PrimFloat.ltb rtf 1 = true → PrimFloat.ltb rtf 1.5 = true) as H12
    by (intros H; by apply (ltb_trans rtf 1 1.5)).
  unfold getRTFStatus.
  destruct (is_nan rtf) eqn:Hnan.
  - rewrite !(nan_not_ltb rtf _ Hnan), !(leb_nan_r _ rtf Hnan). simpl.
    repeat split; intros; try done; try tauto; by destruct_and?.
  - rewrite (leb_negb_ltb rtf 0.5 Hnan eq_refl),
      (leb_negb_ltb rtf 1 Hnan eq_refl), (leb_negb_ltb rtf 1.5 Hnan eq_refl).
    destruct (PrimFloat.ltb rtf 0.5) eqn:H1.
    { rewrite (H01 eq_refl), (H12 (H01 eq_refl)). simpl.
      repeat split; intros; try done; try tauto; try by destruct_and?.
      by destruct_or?. }
    destruct (PrimFloat.ltb rtf 1) eqn:H2.
    { rewrite (H12 eq_refl). simpl.
      repeat split; intros; try done; try tauto; try by destruct_and?.
      by destruct_or?. }
    destruct (PrimFloat.ltb rtf 1.5) eqn:H3; simpl;
      repeat split; intros; try done; try tauto; try by destruct_and?;
      auto; by destruct_or?.
Qed.

Lemma getRTFStatus_tiers_witness :
  label (getRTFStatus 0.75) = "Real-time" ∧
  color (getRTFStatus 0.75) = "text-green-400".
Proof.
  destruct (getRTFStatus_tiers 0.75) as (_ & Hreal & _ & _ & Hgreen).
  split; [apply Hreal | apply Hgreen]; by vm_compute.
Defined.

Lemma compare_eq_const c s m e x :
  Prim2SF c = S754_finite s m e →
  SFcompare (Prim2SF x) (Prim2SF c) = Some Eq → x = c.
Proof.
  intros Hc H. apply Prim2SF_inj. rewrite Hc in *.
  by apply SFcompare_eq_finite.
Qed.

(** [Math.min(y, 100)] by cases. *)
Lemma Math_min_100 y :
  JS.Math_min y 100 =
    if is_nan y then nan
    else if PrimFloat.ltb y 100 then y else 100%float.
Proof.
  unfold JS.Math_min. change (is_nan 100) with false. rewrite orb_false_r.
  destruct (is_nan y) eqn:Hn; [done |].
  pose proof (float_compare y 100) as H.
  destruct (SFcompare (Prim2SF y) (Prim2SF 100)) as [[]|] eqn:Hc.
  - destruct H as (_ & _ & -> & -> & _).
    apply (compare_eq_const 100 false 7036874417766400 (-46)) in Hc; [| done].
    subst y. reflexivity.
  - by destruct H as (_ & _ & -> & _).
  - by destruct H as (_ & _ & -> & -> & _).
  - destruct H as (H & _). rewrite Hn in H. done.
Qed.

(** X3: the widths of the CPU and memory bars never exceed 100: for a
    reading that is not NaN the CPU bar is the reading itself up to 100
    and 100 above it, and the memory bar, unless it is NaN, is at most
    100. *)
Theorem bar_widths_capped metrics :
  let cpu := Page.cpu_percent metrics in
  match MetricsDisplay (Some metrics) true with
  | panel p =>
      (is_nan cpu = false → PrimFloat.leb (cpu_width p) 100 = true) ∧
      (PrimFloat.ltb cpu 100 = true → cpu_width p = cpu) ∧
      (PrimFloat.leb 100 cpu = true → cpu_width p = 100%float) ∧
      (is_nan (memory_width p) = false →
         PrimFloat.leb (memory_width p) 100 = true)
  | placeholder => False
  end.
Proof.
  intros cpu. cbn [MetricsDisplay negb cpu_width memory_width]. fold cpu.
  rewrite !Math_min_100.
  split; [| split; [| split]].
  - intros Hn. rewrite Hn.
    destruct (PrimFloat.ltb cpu 100) eqn:Hlt; [| reflexivity].
    apply leb_compare. left. by apply ltb_compare.
  - intros Hlt. destruct (ltb_not_nan _ _ Hlt) as [-> _]. by rewrite Hlt.
  - intros Hle. destruct (leb_not_nan _ _ Hle) as [_ ->].
    by rewrite (leb_not_ltb _ _ Hle).
  - set (y := PrimFloat.mul _ 100).
    destruct (is_nan y) eqn:Hn; [done |]. intros _.
    destruct (PrimFloat.ltb y 100) eqn:Hlt; [| reflexivity].
    apply leb_compare. left. by apply ltb_compare.
Qed.

Lemma bar_widths_capped_witness :
  let metrics :=
    {| Page.cpu_percent := 137.5; Page.memory_mb := 3000;
       Page.avg_chunk_time_ms := 20; Page.rtf := 0.5;
       Page.processing_time_ms := None |} in
  match MetricsDisplay (Some metrics) true with
  | panel p => cpu_width p = 100%float ∧ PrimFloat.leb (memory_width p) 100 = true
  | placeholder => False
  end.
Proof.
  intros metrics. pose proof (bar_widths_capped metrics) as H.
  cbn [MetricsDisplay negb] in *.
  destruct H as (_ & _ & Hhigh & Hmem).
  split; [apply Hhigh | apply Hmem]; reflexivity.
Defined.

End MetricsPanel.

(** ** audio-processor.js and the port handler: one call, partitions, sending *)

Section EncoderMore.
Import AudioProcessor Forwarding.

Lemma length_audio_messages fs : length (audio_messages fs) = length fs.
Proof. unfold audio_messages. by rewrite length_fmap. Qed.

Lemma frames_count (N : nat) (fs : list (list float)) (p p' xs : list float) :
  Forall (λ f, length f = N) fs → (length p' < N)%nat →
  p ++ xs = concat fs ++ p' →
  length fs = ((length p + length xs) / N)%nat ∧
  length p' = ((length p + length xs) mod N)%nat.
Proof.
  intros Hfs Hlt Hcat.
  pose proof (length_concat_uniform N fs Hfs) as Hlen.
  assert (length p + length xs = N * length fs + length p')%nat as Htotal.
  { rewrite <- Hlen, <- !length_app. by rewrite Hcat. }
  split.
  - apply (Nat.div_unique _ _ _ (length p')); [lia | done].
  - apply (Nat.mod_unique _ _ (length fs)); [lia | done].
Qed.

(** X4: one call of [process] on an accumulator holding [p] pending
    samples, given [n] samples in channel 0 of input 0, returns true and
    posts floor((|p| + n) / bufferSize) messages, leaving (|p| + n) mod
    bufferSize samples pending; further channels and further inputs have
    no influence. *)
Theorem process_emits st p inputChannel channels others :
  holds st p →
  ∃ st' out p',
    process st ((inputChannel :: channels) :: others) = Some (st', out, true) ∧
    process st [[inputChannel]] = Some (st', out, true) ∧
    length out = ((length p + length inputChannel) / bufferSize st)%nat ∧
    holds st' p' ∧
    length p' = ((length p + length inputChannel) mod bufferSize st)%nat ∧
    bufferSize st' = bufferSize st.
Proof.
  intros Hst.
  destruct (process_channel_spec inputChannel st p Hst)
    as (fs & p' & Hout & Hst' & Hsize & Hfs & Hcat).
  cbn [process].
  destruct (process_channel st inputChannel) as [st' out]; cbn [fst snd] in *.
  subst out.
  assert (length p' < bufferSize st)%nat as Hlt
    by (rewrite <- Hsize; apply Hst').
  destruct (frames_count _ fs p p' inputChannel Hfs Hlt Hcat) as [Hn Hm].
  exists st', (audio_messages fs), p'.
  by rewrite length_audio_messages.
Qed.

Lemma process_emits_witness :
  ∃ st' out p',
    process constructor (([0.25; 0.5]%float :: []) :: [])
      = Some (st', out, true) ∧
    process constructor [[[0.25; 0.5]%float]] = Some (st', out, true) ∧
    length out
      = ((length (@nil float) + length [0.25; 0.5]%float) / bufferSize constructor)%nat ∧
    holds st' p' ∧
    length p'
      = ((length (@nil float) + length [0.25; 0.5]%float) mod bufferSize constructor)%nat ∧
    bufferSize st' = bufferSize constructor.
Proof.
  exact (process_emits constructor [] [0.25; 0.5]%float [] [] holds_constructor).
Defined.

Lemma frames_unique (N : nat) (fs1 : list (list float)) : ∀ fs2 p1 p2,
  Forall (λ f, length f = N) fs1 → Forall (λ f, length f = N) fs2 →
  (length p1 < N)%nat → (length p2 < N)%nat →
  concat fs1 ++ p1 = concat fs2 ++ p2 →
  fs1 = fs2 ∧ p1 = p2.
Proof.
  induction fs1 as [|f1 fs1 IH]; intros [|f2 fs2] p1 p2 H1 H2 Hp1 Hp2 Hcat.
  - done.
  - apply Forall_cons in H2 as [Hf2 _]. simpl in Hcat.
    apply (f_equal length) in Hcat. rewrite !length_app in Hcat. lia.
  - apply Forall_cons in H1 as [Hf1 _]. simpl in Hcat.
    apply (f_equal length) in Hcat. rewrite !length_app in Hcat. lia.
  - apply Forall_cons in H1 as [Hf1 H1]. apply Forall_cons in H2 as [Hf2 H2].
    simpl in Hcat. rewrite <- !(assoc_L (++)) in Hcat.
    apply app_inj_1 in Hcat as [-> Hcat]; [| congruence].
    destruct (IH fs2 p1 p2 H1 H2 Hp1 Hp2 Hcat) as [-> ->]. done.
Qed.

Lemma holds_unique st1 st2 p :
  holds st1 p → holds st2 p → bufferSize st1 = bufferSize st2 → st1 = st2.
Proof.
  destruct st1 as [n1 b1 i1], st2 as [n2 b2 i2].
  intros (Hi1 & Hb1 & _) (Hi2 & Hb2 & _) Hn. simpl in *. congruence.
Qed.

(** X5: what a fresh processor posts, and the state it ends in, depend
    only on the sequence of samples, not on how the host cuts it into
    callbacks. *)
Theorem run_partition_independent callbacks1 callbacks2 :
  Forall (λ inputs, inputs ≠ []) callbacks1 →
  Forall (λ inputs, inputs ≠ []) callbacks2 →
  total_samples callbacks1 = total_samples callbacks2 →
  run constructor callbacks1 = run constructor callbacks2 ∧
  is_Some (run constructor callbacks1).
Proof.
  intros Hne1 Hne2 Hsame.
  destruct (run_spec callbacks1 constructor [] Hne1 holds_constructor)
    as (st1 & fs1 & p1 & Hrun1 & Hst1 & Hsize1 & Hfs1 & Hcat1).
  destruct (run_spec callbacks2 constructor [] Hne2 holds_constructor)
    as (st2 & fs2 & p2 & Hrun2 & Hst2 & Hsize2 & Hfs2 & Hcat2).
  rewrite Hrun1, Hrun2. split; [| done].
  cbn [app] in Hcat1, Hcat2.
  assert (length p1 < bufferSize constructor)%nat as Hp1
    by (rewrite <- Hsize1; apply Hst1).
  assert (length p2 < bufferSize constructor)%nat as Hp2
    by (rewrite <- Hsize2; apply Hst2).
  destruct (frames_unique _ fs1 fs2 p1 p2 Hfs1 Hfs2 Hp1 Hp2) as [-> ->];
    [congruence |].
  by rewrite (holds_unique st1 st2 p2 Hst1 Hst2) by congruence.
Qed.

Lemma run_partition_independent_witness :
  run constructor [block (replicate 100 0.5%float); no_channel;
                   block (replicate 28 0.5%float)]
  = run constructor [block (replicate 128 0.5%float)].
Proof.
  apply run_partition_independent.
  - repeat (apply List.Forall_cons; [discriminate |]). apply List.Forall_nil.
  - repeat (apply List.Forall_cons; [discriminate |]). apply List.Forall_nil.
  - vm_compute. reflexivity.
Defined.

Lemma forward_cons d ds : forward (d :: ds) = port_onmessage d.1 d.2 ++ forward ds.
Proof. reflexivity. Qed.

Lemma forward_sublist ds : forward ds `sublist_of` (msg_data <$> ds.*2).
Proof.
  induction ds as [|[ws msg] ds IH]; [done |].
  rewrite forward_cons. cbn [fst snd fmap list_fmap]. unfold port_onmessage.
  destruct (_ && _); simpl.
  - by apply sublist_skip.
  - by apply sublist_cons.
Qed.

Lemma snd_zip_take {A B} (l1 : list A) (l2 : list B) :
  (zip l1 l2).*2 = take (length l1) l2.
Proof.
  revert l2. induction l1 as [|a l1 IH]; intros [|b l2]; simpl; try done.
  by rewrite IH.
Qed.

Lemma forward_all_open states fs :
  (length fs ≤ length states)%nat →
  Forall (λ s, s = Some OPEN) states →
  forward (zip states (audio_messages fs)) = floatTo16BitPCM <$> fs.
Proof.
  revert fs. induction states as [|ws states IH]; intros [|f fs] Hlen Hopen;
    simpl in *; try done; try lia.
  apply Forall_cons in Hopen as [-> Hopen].
  rewrite forward_cons. simpl. f_equal. apply IH; [lia | done].
Qed.

Lemma forward_none_open states out :
  Forall (λ s, s ≠ Some OPEN) states → forward (zip states out) = [].
Proof.
  revert out. induction states as [|ws states IH]; intros [|msg out] Hclosed;
    simpl; try done.
  apply Forall_cons in Hclosed as [Hws Hclosed].
  rewrite forward_cons. cbn [fst snd]. unfold port_onmessage.
  rewrite (bool_decide_eq_false_2 _ Hws), andb_false_r. simpl. by apply IH.
Qed.

(** X6: whatever the state of the socket when each posted message reaches
    the main thread, every binary message sent is a full frame of 4096
    samples and the sent messages are, in order, some of the posted ones;
    if the socket is open throughout, all posted frames are sent, and if
    it is never open (or the ref is null), nothing is sent. *)
Theorem sent_frames_are_full callbacks (states : list (option ReadyState)) :
  Forall (λ inputs, inputs ≠ []) callbacks →
  ∃ st' out,
    run constructor callbacks = Some (st', out) ∧
    Forall (λ payload, length payload = 4096%nat) (forward (zip states out)) ∧
    forward (zip states out) `sublist_of` (msg_data <$> out) ∧
    ((length out ≤ length states)%nat → Forall (λ s, s = Some OPEN) states →
       forward (zip states out) = msg_data <$> out) ∧
    (Forall (λ s, s ≠ Some OPEN) states → forward (zip states out) = []).
Proof.
  intros Hne.
  destruct (run_spec callbacks constructor [] Hne holds_constructor)
    as (st' & fs & p' & Hrun & _ & _ & Hfs & _).
  change (bufferSize constructor) with 4096%nat in Hfs.
  exists st', (audio_messages fs). split; [done |].
  assert (forward (zip states (audio_messages fs))
          `sublist_of` (msg_data <$> audio_messages fs)) as Hsub.
  { etrans; [apply forward_sublist |]. rewrite snd_zip_take.
    apply fmap_sublist, sublist_take. }
  assert (msg_data <$> audio_messages fs = floatTo16BitPCM <$> fs) as Hdata.
  { unfold audio_messages. rewrite <- list_fmap_compose. done. }
  split; [| split; [done | split]].
  - apply Forall_forall. intros payload Hin.
    eapply elem_of_submseteq in Hin; [| by apply sublist_submseteq].
    rewrite Hdata in Hin. apply list_elem_of_fmap in Hin as (f & -> & Hf).
    unfold floatTo16BitPCM. rewrite length_map.
    by eapply Forall_forall in Hfs.
  - intros Hlen Hopen. rewrite length_audio_messages in Hlen.
    by rewrite forward_all_open, Hdata.
  - apply forward_none_open.
Qed.

Lemma sent_frames_are_full_witness :
  let callbacks := [block (replicate 4100 0.5%float)] in
  let states := [Some OPEN; None] in
  ∃ st' out,
    run constructor callbacks = Some (st', out) ∧
    Forall (λ payload, length payload = 4096%nat) (forward (zip states out)) ∧
    forward (zip states out) `sublist_of` (msg_data <$> out) ∧
    ((length out ≤ length states)%nat → Forall (λ s, s = Some OPEN) states →
       forward (zip states out) = msg_data <$> out) ∧
    (Forall (λ s, s ≠ Some OPEN) states → forward (zip states out) = []).
Proof.
  intros callbacks states. apply (sent_frames_are_full callbacks states).
  unfold callbacks, block.
  apply List.Forall_cons; [discriminate | apply List.Forall_nil].
Defined.

End EncoderMore.

(** ** page.tsx: sessions as a whole *)

Section Sessions.
Import Page Controls.

Ltac next_call raises c :=
  destruct (raises c);
  [ by cbn
  | cbn -[stop_tracks seq fmap make_sessionData] ].

(** What a run of [stopRecording] leaves behind, whichever calls raise. *)
Lemma stopRecording_effect raises st persisted now :
  let r := run_stopRecording raises st persisted now in
  stored r.1 =
    (if first_raise raises save_calls is Some _ then persisted
     else Some (default [] persisted ++ [make_sessionData st now])) ∧
  st_transcript (home r.1) = st_transcript st ∧
  currentModel (home r.1) = currentModel st ∧
  st_metrics (home r.1) = st_metrics st ∧
  metricsHistoryRef (home r.1) = metricsHistoryRef st ∧
  sessionStartRef (home r.1) = sessionStartRef st ∧
  (is_Some (first_raise raises (save_calls ++ teardown_calls st)) →
     isRecording (home r.1) = isRecording st ∧ status (home r.1) = status st).
Proof.
  destruct st as [rec tr cm me sc stt ws ctx node stream start hist].
  unfold run_stopRecording, stopRecording, save_calls, teardown_calls.
  cbn [wsRef workletNodeRef audioContextRef streamRef].
  unfold bind, call, get_home, get_stored, put_stored, modify_home, ret.
  cbn -[stop_tracks seq fmap make_sessionData].
  next_call raises localStorage_getItem.
  next_call raises JSON_parse.
  next_call raises localStorage_setItem.
  destruct ws; cbn -[stop_tracks seq fmap make_sessionData];
    [next_call raises WebSocket_close |];
    (destruct node; cbn -[stop_tracks seq fmap make_sessionData];
       [next_call raises WorkletNode_disconnect |]);
    (destruct ctx; cbn -[stop_tracks seq fmap make_sessionData];
       [next_call raises AudioContext_close |]);
    (destruct stream as [[n]|]; cbn -[stop_tracks seq fmap make_sessionData];
       [| repeat split; try done; by intros [? [=]]]);
    rewrite stop_tracks_run; cbn -[seq fmap make_sessionData];
    destruct (first_raise raises (Track_stop <$> seq 0 n));
    cbn -[seq fmap make_sessionData];
    repeat split; try done; by intros [? [=]].
Qed.

(** X7: saving is all or nothing and does not depend on the teardown: if
    none of the three storage calls raises, the persisted list becomes the
    old one followed by the new session, even when a later teardown call
    raises; otherwise the store is as before. In no case does
    [stopRecording] change the transcript, the model, the displayed metrics
    or the metrics history, and when it ends by an exception the recording
    flag and the status are still those from before. *)
Theorem stopRecording_save_atomic raises st persisted now :
  let r := run_stopRecording raises st persisted now in
  (first_raise raises save_calls = None →
     stored r.1 = Some (default [] persisted ++ [make_sessionData st now])) ∧
  (is_Some (first_raise raises save_calls) → stored r.1 = persisted) ∧
  st_transcript (home r.1) = st_transcript st ∧
  currentModel (home r.1) = currentModel st ∧
  st_metrics (home r.1) = st_metrics st ∧
  metricsHistoryRef (home r.1) = metricsHistoryRef st ∧
  (is_Some (first_raise raises (save_calls ++ teardown_calls st)) →
     isRecording (home r.1) = isRecording st ∧ status (home r.1) = status st).
Proof.
  intros r.
  destruct (stopRecording_effect raises st persisted now)
    as (Hstored & Htr & Hcm & Hme & Hhist & _ & Hraised).
  fold r in Hstored, Htr, Hcm, Hme, Hhist, Hraised.
  repeat split; try done.
  - intros Hok. by rewrite Hstored, Hok.
  - intros [c Hc]. by rewrite Hstored, Hc.
  - by apply Hraised.
  - by apply Hraised.
Qed.

Lemma stopRecording_save_atomic_witness :
  let st := handle_all initial [Start (audio_ready {| tracks := 1 |}) 0] in
  let r := run_stopRecording (only AudioContext_close) st None 900 in
  stored r.1 = Some [make_sessionData st 900] ∧ isRecording (home r.1) = true.
Proof.
  intros st r.
  destruct (stopRecording_save_atomic (only AudioContext_close) st None 900)
    as (Hsaved & _ & _ & _ & _ & _ & Hraised).
  split; [by apply Hsaved |].
  apply Hraised. by eexists.
Defined.

Lemma step_stored_prefix a s :
  default [] a.2 `prefix_of` default [] (step a s).2 ∧
  length (default [] (step a s).2)
    = (length (default [] a.2) + (if stops_saved s then 1 else 0))%nat.
Proof.
  destruct a as [st persisted], s as [e | raises now | model r];
    cbn [step fst snd stops_saved];
    [by rewrite Nat.add_0_r | | by rewrite Nat.add_0_r].
  destruct (stopRecording_effect raises st persisted now) as (-> & _).
  destruct (first_raise raises save_calls) as [c|].
  - rewrite bool_decide_eq_false_2 by done. by rewrite Nat.add_0_r.
  - rewrite bool_decide_eq_true_2 by done.
    change (default [] (Some ?l)) with l.
    split; [by apply prefix_app_r | by rewrite length_app].
Qed.

(** X8: over any sequence of events, stops and model switches the list of
    persisted sessions only grows at its end: the earlier list stays a
    prefix, and its length grows by exactly the number of stops whose
    three storage calls did not raise. *)
Theorem store_append_only ss : ∀ a,
  default [] a.2 `prefix_of` default [] (steps a ss).2 ∧
  length (default [] (steps a ss).2)
    = (length (default [] a.2) + length (filter (λ s, stops_saved s = true) ss))%nat.
Proof.
  induction ss as [|s ss IH]; intros a.
  - simpl. split; [done | lia].
  - destruct (step_stored_prefix a s) as [Hpre Hlen].
    destruct (IH (step a s)) as [Hpre' Hlen'].
    change (steps a (s :: ss)) with (steps (step a s) ss).
    split; [by etrans |].
    rewrite Hlen', Hlen. destruct (stops_saved s) eqn:Hs.
    + rewrite filter_cons_True by done. simpl. lia.
    + rewrite filter_cons_False by (by rewrite Hs). lia.
Qed.

(** The transcript after an event depends on the transcript before it
    only. *)
Lemma handle_transcript_congr st1 st2 e :
  st_transcript st1 = st_transcript st2 →
  st_transcript (handle st1 e) = st_transcript (handle st2 e).
Proof.
  intros Heq. destruct e as [[] now | data now | | | |]; simpl; try done.
  rewrite !onmessage_transcript, Heq. done.
Qed.

Lemma handle_all_transcript_congr es : ∀ st1 st2,
  st_transcript st1 = st_transcript st2 →
  st_transcript (handle_all st1 es) = st_transcript (handle_all st2 es).
Proof.
  induction es as [|e es IH]; intros st1 st2 Heq; [done |].
  apply IH. by apply handle_transcript_congr.
Qed.

Lemma handle_all_app st es1 es2 :
  handle_all st (es1 ++ es2) = handle_all (handle_all st es1) es2.
Proof. apply foldl_app. Qed.

(** X9: the transcript only depends on what happened since it was last
    emptied: after a reset or a successful start, it is the transcript the
    later events alone would build from the initial state. *)
Theorem transcript_since_last_clear st es1 e es2 :
  clears_transcript e = true →
  st_transcript (handle_all st (es1 ++ e :: es2))
  = st_transcript (handle_all initial es2).
Proof.
  intros He. rewrite handle_all_app.
  change (handle_all ?s (e :: es2)) with (handle_all (handle s e) es2).
  apply handle_all_transcript_congr.
  destruct e as [[] now | | | | |]; try done.
Qed.

Lemma transcript_since_last_clear_witness :
  st_transcript
    (handle_all initial
       ([Message (text_message "final" "one" None) 1] ++
        Reset :: [Message (text_message "partial" "tw" None) 2]))
  = st_transcript
      (handle_all initial [Message (text_message "partial" "tw" None) 2]).
Proof. by apply transcript_since_last_clear. Defined.

Lemma finals_onmessage data now st :
  finals (st_transcript (onmessage data now st))
  = finals (st_transcript st) ++ option_list (committed (Message data now)).
Proof.
  rewrite onmessage_transcript. cbn [committed]. unfold type_is.
  destruct (data_type data) as [ty|] eqn:Hty; [| by rewrite app_nil_r].
  destruct (decide (ty = "final")) as [-> | Hfinal].
  - rewrite (bool_decide_eq_false_2 (Some "final" = Some "partial")) by done.
    rewrite (bool_decide_eq_false_2 (Some "final" = Some "connected")) by done.
    rewrite (bool_decide_eq_true_2 (Some "final" = Some "final")) by done.
    simpl. destruct (truthy (data_text data)); simpl; [| by rewrite app_nil_r].
    rewrite add_segment_eq, finals_app, finals_singleton. unfold type_is.
    rewrite Hty.
    rewrite (bool_decide_eq_false_2 (Some "final" = Some "partial")) by done.
    simpl. by rewrite (finals_of_final (finals _)) by apply finals_all_final.
  - rewrite (bool_decide_eq_false_2 (Some ty = Some "final")) by congruence.
    rewrite orb_false_r. simpl. rewrite app_nil_r.
    case_match; [| done].
    rewrite add_segment_eq, finals_app, finals_singleton. unfold type_is.
    rewrite Hty.
    destruct (bool_decide (Some ty = Some "partial")); [| done].
    simpl. rewrite app_nil_r.
    by rewrite (finals_of_final (finals _)) by apply finals_all_final.
Qed.

(** X10: as long as the transcript is not emptied, the final segments are
    exactly those it had, followed by one segment for each final message
    with a non-empty text, in arrival order; partial messages, messages
    without text and all other events add and remove none. *)
Theorem finals_append_only es : ∀ st,
  Forall (λ e, clears_transcript e = false) es →
  finals (st_transcript (handle_all st es))
  = finals (st_transcript st) ++ omap committed es.
Proof.
  induction es as [|e es IH]; intros st Hes.
  - simpl. by rewrite app_nil_r.
  - apply Forall_cons in Hes as [He Hes].
    change (handle_all st (e :: es)) with (handle_all (handle st e) es).
    rewrite (IH _ Hes).
    assert (finals (st_transcript (handle st e))
            = finals (st_transcript st) ++ option_list (committed e)) as ->.
    { destruct e as [[] now | data now | | | |]; try done;
        simpl; try by rewrite app_nil_r.
      apply finals_onmessage. }
    rewrite <- (assoc_L (++)). f_equal.
    cbn [omap list_omap]. by destruct (committed e).
Qed.

Lemma finals_append_only_witness :
  finals (st_transcript
            (handle_all initial
               [Message (text_message "partial" "go" None) 1;
                Message (text_message "final" "good" None) 2;
                Message (text_message "final" "" None) 3;
                SocketClose;
                Message (text_message "partial" "da" None) 4]))
  = [ {| text := "good"; type := final; timestamp := 2 |} ].
Proof.
  rewrite finals_append_only; [reflexivity |].
  repeat (apply List.Forall_cons; [reflexivity |]). apply List.Forall_nil.
Defined.

(** What [onmessage] leaves alone. *)
Lemma onmessage_frame data now st :
  isRecording (onmessage data now st) = isRecording st ∧
  wsRef (onmessage data now st) = wsRef st ∧
  workletNodeRef (onmessage data now st) = workletNodeRef st ∧
  audioContextRef (onmessage data now st) = audioContextRef st ∧
  streamRef (onmessage data now st) = streamRef st ∧
  sessionStartRef (onmessage data now st) = sessionStartRef st.
Proof.
  unfold onmessage.
  destruct (type_is data "connected"); [done |].
  destruct (type_is data "partial" || type_is data "final").
  - by destruct (truthy (data_text data)), (data_metrics data).
  - destruct (type_is data "model_switched"); [done |].
    by destruct (type_is data "error").
Qed.

Lemma onmessage_history data now st :
  metricsHistoryRef (onmessage data now st)
    = metricsHistoryRef st ++ option_list (recorded (Message data now)) ∧
  (recorded (Message data now) = None →
     st_metrics (onmessage data now st) = st_metrics st) ∧
  (∀ m, recorded (Message data now) = Some m →
     st_metrics (onmessage data now st) = Some m).
Proof.
  unfold onmessage. cbn [recorded]. unfold type_is.
  destruct (data_type data) as [ty|]; [| by rewrite app_nil_r].
  destruct (decide (ty = "connected")) as [-> | Hc].
  { rewrite (bool_decide_eq_true_2 (Some "connected" = Some "connected")) by done.
    rewrite (bool_decide_eq_false_2 (Some "connected" = Some "partial")) by done.
    rewrite (bool_decide_eq_false_2 (Some "connected" = Some "final")) by done.
    by rewrite app_nil_r. }
  rewrite (bool_decide_eq_false_2 (Some ty = Some "connected")) by congruence.
  destruct (bool_decide (Some ty = Some "partial") || bool_decide (Some ty = Some "final")).
  - destruct (truthy (data_text data)), (data_metrics data) as [m|];
      simpl; rewrite ?app_nil_r; repeat split; try done; by intros ? [= ->].
  - destruct (bool_decide (Some ty = Some "model_switched"));
      [by rewrite app_nil_r |].
    destruct (bool_decide (Some ty = Some "error")); by rewrite app_nil_r.
Qed.

Lemma handle_history e st :
  restarts e = false →
  metricsHistoryRef (handle st e)
    = metricsHistoryRef st ++ option_list (recorded e) ∧
  sessionStartRef (handle st e) = sessionStartRef st.
Proof.
  intros He. destruct e as [[] now | data now | | | |]; try done;
    simpl; rewrite ?app_nil_r; try done.
  split; [apply onmessage_history | apply onmessage_frame].
Qed.

(** X11: within a session the metrics history is exactly the samples
    carried by the partial and final messages, in arrival order, whether or
    not the message had text; resets, socket events, failed starts and
    messages of other types add and remove none. *)
Theorem metrics_history_append_only es : ∀ st,
  Forall (λ e, restarts e = false) es →
  metricsHistoryRef (handle_all st es) = metricsHistoryRef st ++ omap recorded es ∧
  sessionStartRef (handle_all st es) = sessionStartRef st.
Proof.
  induction es as [|e es IH]; intros st Hes.
  - simpl. by rewrite app_nil_r.
  - apply Forall_cons in Hes as [He Hes].
    change (handle_all st (e :: es)) with (handle_all (handle st e) es).
    destruct (IH (handle st e) Hes) as [-> ->].
    destruct (handle_history e st He) as [-> ->].
    split; [| done]. rewrite <- (assoc_L (++)). f_equal.
    cbn [omap list_omap]. by destruct (recorded e).
Qed.

Lemma metrics_history_append_only_witness :
  let m := {| cpu_percent := 20; memory_mb := 300; avg_chunk_time_ms := 15;
              rtf := 0.25; processing_time_ms := None |} in
  metricsHistoryRef
    (handle_all initial
       [Message (text_message "partial" "" (Some m)) 1; Reset;
        Message (text_message "final" "ok" None) 2;
        Message (text_message "final" "then" (Some m)) 3])
  = [m; m].
Proof.
  intros m.
  destruct (metrics_history_append_only
              [Message (text_message "partial" "" (Some m)) 1; Reset;
               Message (text_message "final" "ok" None) 2;
               Message (text_message "final" "then" (Some m)) 3] initial)
    as [-> _]; [| reflexivity].
  repeat (apply List.Forall_cons; [reflexivity |]). apply List.Forall_nil.
Defined.

(** X12: the session that a stop saves, spelled out: after a successful
    start at [t0], any events that do not start again, and a stop at [t1]
    whose storage calls do not raise, the persisted list is the old one
    followed by a session with timestamp [t0], duration [t1 - t0], the
    model current at stop time, the metrics recorded since the start, and
    the joined texts of the transcript. *)
Theorem saved_session_fields st stream t0 es raises persisted t1 :
  Forall (λ e, restarts e = false) es →
  first_raise raises save_calls = None →
  let st1 := handle_all (startRecording (audio_ready stream) t0 st) es in
  stored (run_stopRecording raises st1 persisted t1).1
  = Some (default [] persisted ++
          [ {| model := currentModel st1;
               session_timestamp := t0;
               duration := t1 - t0;
               metrics := omap recorded es;
               transcript := join_texts (st_transcript st1) |} ]).
Proof.
  intros Hes Hok st1.
  destruct (stopRecording_effect raises st1 persisted t1) as (-> & _).
  rewrite Hok. unfold make_sessionData.
  destruct (metrics_history_append_only es
              (startRecording (audio_ready stream) t0 st) Hes) as [Hhist Hstart].
  fold st1 in Hhist, Hstart. by rewrite Hhist, Hstart.
Qed.

Lemma saved_session_fields_witness :
  let m := {| cpu_percent := 20; memory_mb := 300; avg_chunk_time_ms := 15;
              rtf := 0.25; processing_time_ms := None |} in
  let es := [Message (text_message "final" "hi" (Some m)) 1500] in
  let st1 := handle_all (startRecording (audio_ready {| tracks := 1 |}) 1000 initial) es in
  stored (run_stopRecording (only WebSocket_close) st1 None 4000).1
  = Some (default [] None ++
          [ {| model := currentModel st1;
               session_timestamp := 1000;
               duration := 4000 - 1000;
               metrics := omap recorded es;
               transcript := join_texts (st_transcript st1) |} ]).
Proof.
  intros m es st1.
  apply (saved_session_fields initial {| tracks := 1 |} 1000 es
           (only WebSocket_close) None 4000).
  - repeat (apply List.Forall_cons; [reflexivity |]). apply List.Forall_nil.
  - reflexivity.
Defined.

Lemma step_metrics_last a s :
  (metricsHistoryRef a.1 = [] ∨ st_metrics a.1 = last (metricsHistoryRef a.1)) →
  metricsHistoryRef (step a s).1 = [] ∨
  st_metrics (step a s).1 = last (metricsHistoryRef (step a s).1).
Proof.
  intros Hinv. destruct a as [st persisted].
  destruct s as [e | raises now | model r]; cbn [step fst snd] in *.
  - destruct e as [[] t | data t | | | |]; simpl; try done; auto.
    destruct (onmessage_history data t st) as (Hhist & Hnone & Hsome).
    rewrite Hhist. destruct (recorded (Message data t)) as [m|].
    + right. rewrite (Hsome m eq_refl). simpl. by rewrite last_snoc.
    + simpl. rewrite app_nil_r, (Hnone eq_refl). done.
  - destruct (stopRecording_effect raises st persisted now)
      as (_ & _ & _ & -> & -> & _). done.
  - unfold switchModel. destruct (isRecording st); [done |]. by destruct r.
Qed.

Lemma steps_metrics_last ss : ∀ a,
  (metricsHistoryRef a.1 = [] ∨ st_metrics a.1 = last (metricsHistoryRef a.1)) →
  metricsHistoryRef (steps a ss).1 = [] ∨
  st_metrics (steps a ss).1 = last (metricsHistoryRef (steps a ss).1).
Proof.
  induction ss as [|s ss IH]; intros a Ha; [done |].
  apply (IH (step a s)). by apply step_metrics_last.
Qed.

(** X13: in every state the page can reach through events, stops and
    model switches, whenever the metrics history of the session is not
    empty the metrics state holds its last sample; so while the page is
    recording the metrics column shows the panel of that last sample, and
    while it is not recording the column shows the placeholder, whatever
    the history holds. *)
Theorem displayed_metrics_is_last ss persisted :
  let st := (steps (initial, persisted) ss).1 in
  (metricsHistoryRef st = [] ∨ st_metrics st = last (metricsHistoryRef st)) ∧
  (isRecording st = true → metricsHistoryRef st ≠ [] →
     MetricsDisplay.metrics_column st
     = MetricsDisplay.MetricsDisplay (last (metricsHistoryRef st)) true) ∧
  (isRecording st = false →
     MetricsDisplay.metrics_column st = MetricsDisplay.placeholder).
Proof.
  intros st.
  assert (metricsHistoryRef st = [] ∨ st_metrics st = last (metricsHistoryRef st))
    as Hlast by (apply steps_metrics_last; by left).
  split; [exact Hlast |]. split.
  - intros Hrec Hne. destruct Hlast as [Hnil | Hlast]; [done |].
    unfold MetricsDisplay.metrics_column. by rewrite Hrec, Hlast.
  - intros Hrec. unfold MetricsDisplay.metrics_column, MetricsDisplay.MetricsDisplay.
    by rewrite Hrec.
Qed.

Lemma displayed_metrics_is_last_witness :
  let m := {| cpu_percent := 20; memory_mb := 300; avg_chunk_time_ms := 15;
              rtf := 0.25; processing_time_ms := None |} in
  let ss := [Ev (Start (audio_ready {| tracks := 1 |}) 0);
             Ev (Message (text_message "final" "hi" (Some m)) 3)] in
  let st := (steps (initial, None) ss).1 in
  let stopped := (steps (initial, None) (ss ++ [Stop never 9])).1 in
  MetricsDisplay.metrics_column st
  = MetricsDisplay.MetricsDisplay (last (metricsHistoryRef st)) true ∧
  MetricsDisplay.metrics_column stopped = MetricsDisplay.placeholder.
Proof.
  intros m ss st stopped.
  destruct (displayed_metrics_is_last ss None) as (_ & Hshown & _).
  destruct (displayed_metrics_is_last (ss ++ [Stop never 9]) None) as (_ & _ & Hhidden).
  split; [apply Hshown | apply Hhidden]; by vm_compute.
Defined.

Lemma handle_equipped st e :
  (isRecording st = true → equipped st) →
  isRecording (handle st e) = true → equipped (handle st e).
Proof.
  intros Hinv.
  destruct e as [[stream | | stream] now | data now | | | |];
    cbn [handle]; try exact Hinv.
  - intros _. unfold equipped. simpl. eauto.
  - simpl. intros Hrec. destruct (Hinv Hrec) as (? & ? & ? & ?).
    unfold equipped. simpl. eauto.
  - destruct (onmessage_frame data now st) as (-> & Hws & Hnode & Hctx & Hstream & _).
    intros Hrec. unfold equipped. rewrite Hws, Hnode, Hctx, Hstream.
    by apply Hinv.
Qed.

Lemma reachable_equipped es :
  isRecording (handle_all initial es) = true → equipped (handle_all initial es).
Proof.
  assert (∀ st, (isRecording st = true → equipped st) →
            isRecording (handle_all st es) = true → equipped (handle_all st es))
    as H.
  { induction es as [|e es IH]; intros st Hst; [done |].
    apply (IH (handle st e)). by apply handle_equipped. }
  apply H. done.
Qed.

(** X14: whenever the page is recording, in a state reached from the
    initial one by any events, the socket, worklet node, audio context and
    stream refs are all set, so a stop in which nothing raises makes the
    three storage calls and then all four teardown steps: socket close,
    worklet disconnect, context close, and a stop of every track. *)
Theorem recording_stop_tears_down_all es persisted now :
  let st := handle_all initial es in
  isRecording st = true →
  ∃ n, streamRef st = Some {| tracks := n |} ∧
    trace (run_stopRecording never st persisted now).1
    = [localStorage_getItem; JSON_parse; localStorage_setItem;
       WebSocket_close; WorkletNode_disconnect; AudioContext_close]
      ++ (Track_stop <$> seq 0 n).
Proof.
  intros st Hrec.
  destruct (reachable_equipped es Hrec) as ([ws Hws] & [node Hnode] & [ctx Hctx] & [[n] Hstream]).
  fold st in Hws, Hnode, Hctx, Hstream.
  exists n. split; [done |].
  rewrite stopRecording_never. cbn [trace]. unfold save_calls, teardown_calls.
  by rewrite Hws, Hnode, Hctx, Hstream.
Qed.

Lemma recording_stop_tears_down_all_witness :
  let st := handle_all initial
              [Start (audio_ready {| tracks := 2 |}) 0;
               Start getUserMedia_failed 5; SocketOpen] in
  ∃ n, streamRef st = Some {| tracks := n |} ∧
    trace (run_stopRecording never st None 10).1
    = [localStorage_getItem; JSON_parse; localStorage_setItem;
       WebSocket_close; WorkletNode_disconnect; AudioContext_close]
      ++ (Track_stop <$> seq 0 n).
Proof.
  apply (recording_stop_tears_down_all
           [Start (audio_ready {| tracks := 2 |}) 0;
            Start getUserMedia_failed 5; SocketOpen] None 10).
  reflexivity.
Defined.

Lemma handle_keeps_recording st e :
  isRecording st = true → isRecording (handle st e) = true.
Proof.
  intros Hrec. destruct e as [[] now | data now | | | |]; simpl; try done.
  by destruct (onmessage_frame data now st) as (-> & _).
Qed.

Lemma switchModel_recording model r st :
  isRecording st = true →
  switchModel model r st = (st, [alert "Stop recording before switching models"]).
Proof. intros Hrec. unfold switchModel. by rewrite Hrec. Qed.

(** X15: while the page is recording, [switchModel] only shows its alert:
    over any steps without a stop, the state is the one the session events
    alone produce, the store is untouched, and no switch sends a request. *)
Theorem switch_ignored_while_recording ss : ∀ st persisted,
  isRecording st = true →
  Forall (λ s, is_Stop s = false) ss →
  steps (st, persisted) ss = (handle_all st (events_of ss), persisted) ∧
  isRecording (steps (st, persisted) ss).1 = true ∧
  (∀ model r,
     (switchModel model r (steps (st, persisted) ss).1).2
     = [alert "Stop recording before switching models"]).
Proof.
  induction ss as [|s ss IH]; intros st persisted Hrec Hss.
  - simpl. repeat split; try done. intros model r.
    by rewrite switchModel_recording.
  - apply Forall_cons in Hss as [Hs Hss].
    change (steps (st, persisted) (s :: ss))
      with (steps (step (st, persisted) s) ss).
    destruct s as [e | raises now | model r]; [| done |].
    + change (step (st, persisted) (Ev e)) with (handle st e, persisted).
      change (handle_all st (events_of (Ev e :: ss)))
        with (handle_all (handle st e) (events_of ss)).
      apply IH; [by apply handle_keeps_recording | done].
    + change (step (st, persisted) (Switch model r))
        with ((switchModel model r st).1, persisted).
      rewrite (switchModel_recording model r st Hrec). cbn [fst].
      change (events_of (Switch model r :: ss)) with (events_of ss).
      by apply IH.
Qed.

Lemma switch_ignored_while_recording_witness :
  let st := handle_all initial [Start (audio_ready {| tracks := 1 |}) 0] in
  steps (st, None)
        [Switch "whisper" (fetch_ok (Some "whisper"));
         Ev (Message (text_message "final" "hi" None) 3)]
  = (handle_all st [Message (text_message "final" "hi" None) 3], None).
Proof.
  intros st.
  apply (switch_ignored_while_recording
           [Switch "whisper" (fetch_ok (Some "whisper"));
            Ev (Message (text_message "final" "hi" None) 3)] st None).
  - reflexivity.
  - repeat (apply List.Forall_cons; [reflexivity |]). apply List.Forall_nil.
Defined.

(** X16: the metrics on display outlive their session: after a stop in
    which nothing raises the metrics column shows the placeholder although
    the last sample is still held, and after the next successful start it
    shows that old sample again while the new session's history is
    empty. *)
Theorem metrics_column_stale st m persisted t1 stream t2 :
  st_metrics st = Some m →
  let stopped := home (run_stopRecording never st persisted t1).1 in
  let restarted := startRecording (audio_ready stream) t2 stopped in
  MetricsDisplay.metrics_column stopped = MetricsDisplay.placeholder ∧
  st_metrics stopped = Some m ∧
  MetricsDisplay.metrics_column restarted
    = MetricsDisplay.MetricsDisplay (Some m) true ∧
  metricsHistoryRef restarted = [].
Proof.
  intros Hm. cbv zeta. rewrite !stopRecording_never. cbn [home fst].
  destruct st as [rec tr cm me sc stt ws ctx node str start hist].
  cbn [st_metrics] in Hm. subst me.
  unfold MetricsDisplay.metrics_column. repeat split; reflexivity.
Qed.

Lemma metrics_column_stale_witness :
  let m := {| cpu_percent := 20; memory_mb := 300; avg_chunk_time_ms := 15;
              rtf := 0.25; processing_time_ms := None |} in
  let st := handle_all initial
              [Start (audio_ready {| tracks := 1 |}) 0;
               Message (text_message "final" "hi" (Some m)) 3] in
  let stopped := home (run_stopRecording never st None 9).1 in
  let restarted := startRecording (audio_ready {| tracks := 1 |}) 20 stopped in
  MetricsDisplay.metrics_column stopped = MetricsDisplay.placeholder ∧
  st_metrics stopped = Some m ∧
  MetricsDisplay.metrics_column restarted
    = MetricsDisplay.MetricsDisplay (Some m) true ∧
  metricsHistoryRef restarted = [].
Proof.
  intros m st.
  apply (metrics_column_stale st m None 9 {| tracks := 1 |} 20).
  reflexivity.
Defined.

(** X20: no message from the backend, of whatever type and content, ends
    a recording or touches the socket, worklet, context and stream refs or
    the session start time: after any sequence of messages they are as
    before. *)
Theorem messages_keep_session (msgs : list (Data * Z)) : ∀ st,
  let st' := foldl (λ s m, onmessage m.1 m.2 s) st msgs in
  isRecording st' = isRecording st ∧
  wsRef st' = wsRef st ∧
  workletNodeRef st' = workletNodeRef st ∧
  audioContextRef st' = audioContextRef st ∧
  streamRef st' = streamRef st ∧
  sessionStartRef st' = sessionStartRef st.
Proof.
  induction msgs as [|[data now] msgs IH]; intros st; [done |].
  cbn [foldl fst snd].
  destruct (IH (onmessage data now st)) as (-> & -> & -> & -> & -> & ->).
  apply onmessage_frame.
Qed.

(** X21: a partial message leaves no trace once the next message with
    text arrives: handling a partial and then a partial or final message
    with non-empty text gives the transcript that the second message alone
    gives. *)
Theorem partial_superseded p1 t1 p2 t2 st :
  data_type p1 = Some "partial" →
  data_type p2 = Some "partial" ∨ data_type p2 = Some "final" →
  truthy (data_text p2) = true →
  st_transcript (onmessage p2 t2 (onmessage p1 t1 st))
  = st_transcript (onmessage p2 t2 st).
Proof.
  intros H1 H2 Htext.
  assert ((type_is p2 "partial" || type_is p2 "final") && truthy (data_text p2)
          && negb (type_is p2 "connected") = true) as Hp2.
  { unfold type_is. rewrite Htext. by destruct H2 as [-> | ->]. }
  rewrite (onmessage_transcript p2), (onmessage_transcript p2 t2 st), Hp2.
  rewrite !add_segment_eq. f_equal.
  rewrite onmessage_transcript. case_match; [| done].
  rewrite add_segment_eq, finals_app, finals_singleton. unfold type_is.
  rewrite H1. simpl. rewrite app_nil_r.
  apply finals_of_final, finals_all_final.
Qed.

Lemma partial_superseded_witness :
  st_transcript
    (onmessage (text_message "final" "hello world" None) 2
       (onmessage (text_message "partial" "hel" None) 1 initial))
  = st_transcript (onmessage (text_message "final" "hello world" None) 2 initial).
Proof. apply partial_superseded; [reflexivity | by right | reflexivity]. Defined.

(** X22: a start whose audio setup fails starts nothing: no socket is
    opened, the recording flag, transcript, metrics history and session
    start stay as they were, and the status reads "Audio initialization
    failed"; if the failure came after the microphone was granted, the
    stream stays referenced. *)
Theorem failed_start_starts_nothing r now st :
  (∀ stream, r ≠ audio_ready stream) →
  let st' := startRecording r now st in
  wsRef st' = wsRef st ∧
  isRecording st' = isRecording st ∧
  st_transcript st' = st_transcript st ∧
  metricsHistoryRef st' = metricsHistoryRef st ∧
  sessionStartRef st' = sessionStartRef st ∧
  status st' = "Audio initialization failed" ∧
  (∀ stream, r = addModule_failed stream → streamRef st' = Some stream) ∧
  (r = getUserMedia_failed → streamRef st' = streamRef st).
Proof.
  intros Hr. destruct r as [stream | | stream]; [by destruct (Hr stream) | |];
    simpl; repeat split; try done; by intros ? [= ->].
Qed.

Lemma failed_start_starts_nothing_witness :
  let st' := startRecording (addModule_failed {| tracks := 1 |}) 50 initial in
  wsRef st' = None ∧ isRecording st' = false ∧
  streamRef st' = Some {| tracks := 1 |}.
Proof.
  intros st'.
  destruct (failed_start_starts_nothing (addModule_failed {| tracks := 1 |}) 50 initial)
    as (Hws & Hrec & _ & _ & _ & _ & Hstream & _); [discriminate |].
  split; [exact Hws |]. split; [exact Hrec |]. by apply Hstream.
Defined.

End Sessions.

(** ** ComparisonView.tsx: selection and compared rows *)

Section ComparisonRows.
Import Comparison ComparisonData.

Lemma elem_of_slice_last k l j : j ∈ slice_last k l → j ∈ l.
Proof.
  unfold slice_last. intros Hj.
  eapply elem_of_submseteq; [exact Hj |]. apply sublist_submseteq, sublist_drop.
Qed.

Lemma last_in_slice_last prev index : index ∈ slice_last 2 (prev ++ [index]).
Proof.
  unfold slice_last. rewrite length_app. simpl.
  rewrite drop_app_le by lia. apply elem_of_app. right. by apply list_elem_of_singleton.
Qed.

(** X17: a toggle flips exactly the toggled index: afterwards it is
    selected if and only if it was not selected before; no other index
    becomes selected; and another selected index stays selected unless it
    is the older of two and makes room for the new one. *)
Theorem toggle_flips index prev :
  (index ∈ toggle index prev ↔ index ∉ prev) ∧
  (∀ j, j ≠ index → j ∈ toggle index prev → j ∈ prev) ∧
  (∀ j, j ≠ index → j ∈ prev → index ∈ prev ∨ (length prev < 2)%nat →
        j ∈ toggle index prev).
Proof.
  unfold toggle. case_bool_decide as Hin.
  - split; [| split].
    + split; [| done]. intros H. apply list_elem_of_filter in H as [? _]. done.
    + intros j _ Hj. by apply list_elem_of_filter in Hj as [_ ?].
    + intros j Hne Hj _. by apply list_elem_of_filter.
  - split; [| split].
    + split; [done |]. intros _. apply last_in_slice_last.
    + intros j Hne Hj. apply elem_of_slice_last in Hj.
      apply elem_of_app in Hj as [? | Hj]; [done |].
      by apply list_elem_of_singleton in Hj.
    + intros j Hne Hj [? | Hlen]; [done |].
      unfold slice_last. rewrite length_app. simpl.
      replace (length prev + 1 - 2)%nat with 0%nat by lia.
      rewrite drop_0. apply elem_of_app. by left.
Qed.

Lemma toggle_flips_witness :
  (3%nat ∈ toggle 3 [1; 2]%nat) ∧ (2%nat ∈ toggle 3 [1; 2]%nat → 2%nat ∈ [1; 2]%nat).
Proof.
  destruct (toggle_flips 3 [1; 2]%nat) as (Hflip & Hother & _).
  split.
  - apply Hflip. rewrite !elem_of_cons, elem_of_nil. lia.
  - apply Hother. lia.
Defined.

Lemma toggle_NoDup index prev : NoDup prev → NoDup (toggle index prev).
Proof.
  intros Hnd. unfold toggle. case_bool_decide as Hin.
  - by apply NoDup_filter.
  - unfold slice_last. eapply (sublist_NoDup _ (prev ++ [index]));
      [| apply sublist_drop].
    apply NoDup_app. split; [done |]. split; [| apply NoDup_singleton].
    intros x Hx Hx'. apply list_elem_of_singleton in Hx'. by subst.
Qed.

Lemma apply_NoDup v o : NoDup (selectedSessions v) → NoDup (selectedSessions (apply v o)).
Proof.
  intros Hv. destruct o as [[parsed|] | [] | index];
    cbn [apply loadSessions clearSessions toggleSession selectedSessions];
    try done.
  - destruct (2 <=? length parsed)%nat eqn:H2.
    + apply Nat.leb_le in H2. apply NoDup_cons. split; [| apply NoDup_singleton].
      rewrite list_elem_of_singleton. lia.
    + destruct (length parsed =? 1)%nat; [apply NoDup_singleton | done].
  - apply NoDup_nil_2.
  - by apply toggle_NoDup.
Qed.

(** X18: over every sequence of loads, clears and toggles, no session
    index is ever selected twice. *)
Theorem selection_NoDup os : NoDup (selectedSessions (apply_all initial os)).
Proof.
  assert (∀ v, NoDup (selectedSessions v) → NoDup (selectedSessions (apply_all v os)))
    as H.
  { induction os as [|o os IH]; intros v Hv; [done |].
    apply (IH (apply v o)). by apply apply_NoDup. }
  apply H. apply NoDup_nil_2.
Qed.

Lemma toggle_elem_of j index prev :
  j ∈ toggle index prev → j = index ∨ j ∈ prev.
Proof.
  unfold toggle. case_bool_decide as Hin; intros Hj.
  - right. by apply list_elem_of_filter in Hj as [_ ?].
  - apply elem_of_slice_last in Hj. apply elem_of_app in Hj as [? | Hj]; [by right |].
    left. by apply list_elem_of_singleton in Hj.
Qed.

Lemma mount_in_bounds stored : in_bounds (mount stored).
Proof.
  unfold in_bounds, mount. destruct stored as [parsed|];
    cbn [loadSessions selectedSessions sessions initial]; [| done].
  destruct (2 <=? length parsed)%nat eqn:H2.
  - apply Nat.leb_le in H2.
    apply Forall_cons; split; [lia |]. apply Forall_cons; split; [lia | done].
  - destruct (length parsed =? 1)%nat eqn:H1; [| done].
    apply Nat.eqb_eq in H1. apply Forall_cons; split; [lia | done].
Qed.

Lemma apply_in_bounds v o :
  offered v o = true → in_bounds v → in_bounds (apply v o).
Proof.
  unfold in_bounds. intros Ho Hv.
  destruct o as [stored | [] | index]; simpl in *; try done.
  apply bool_decide_eq_true_1 in Ho.
  apply Forall_forall. intros j Hj.
  apply toggle_elem_of in Hj as [-> | Hj]; [done |].
  by eapply Forall_forall in Hv.
Qed.

Lemma apply_all_in_bounds os : ∀ v,
  all_offered v os = true → in_bounds v → in_bounds (apply_all v os).
Proof.
  induction os as [|o os IH]; intros v Hos Hv; [done |].
  cbn [all_offered] in Hos. apply andb_true_iff in Hos as [Ho Hos].
  apply (IH (apply v o)); [done | by apply apply_in_bounds].
Qed.

Lemma has_average_iff s : is_Some (getAverageMetrics s) ↔ metrics s ≠ [].
Proof.
  unfold getAverageMetrics. destruct (metrics s) as [|m ms]; simpl.
  - split; [by intros [? ?] | done].
  - split; [done | by eexists].
Qed.

Lemma rows_of_selection tl (l : list SessionData) (sel : list nat) :
  Forall (λ i, (i < length l)%nat) sel →
  ∃ rows,
    mapM (λ idx, row_of tl <$> l !! idx) sel = Some rows ∧
    length rows = length sel ∧
    ∀ d, d ∈ rows ↔ ∃ i s, i ∈ sel ∧ l !! i = Some s ∧ d = row_of tl s.
Proof.
  induction 1 as [|i sel Hi _ (rows & Hrows & Hlen & Hspec)].
  - exists []. split; [done |]. split; [done |]. intros d. split.
    + intros Hd. by apply elem_of_nil in Hd.
    + intros (i & s & Hi & _). by apply elem_of_nil in Hi.
  - destruct (lookup_lt_is_Some_2 l i Hi) as [s Hs].
    exists (row_of tl s :: rows). split; [| split].
    + apply mapM_Some_2. constructor; [by rewrite Hs |].
      by apply mapM_Some_1.
    + simpl. by rewrite Hlen.
    + intros d. rewrite elem_of_cons, Hspec. split.
      * intros [-> | (j & s' & Hj & Hs' & ->)].
        -- exists i, s. rewrite elem_of_cons. auto.
        -- exists j, s'. rewrite elem_of_cons. auto.
      * intros (j & s' & Hj & Hs' & ->).
        apply elem_of_cons in Hj as [-> | Hj].
        -- left. congruence.
        -- right. eauto.
Qed.

(** X19: in the mounted component, after any of the operations it
    offers, every selected index has a session, so building the compared
    rows never reads a missing session; there are at most two rows, and
    they are exactly the rows of the selected sessions that have at least
    one metrics sample: a selected session without samples is left out. *)
Theorem comparisonData_defined tl stored os :
  all_offered (mount stored) os = true →
  let v := apply_all (mount stored) os in
  in_bounds v ∧
  ∃ rows,
    comparisonData tl v = Some rows ∧
    render tl v = Some rows ∧
    (length rows ≤ 2)%nat ∧
    ∀ d, d ∈ rows ↔
         ∃ i s, i ∈ selectedSessions v ∧ sessions v !! i = Some s ∧
                metrics s ≠ [] ∧ d = row_of tl s.
Proof.
  intros Hos v.
  assert (in_bounds v) as Hv
    by (apply apply_all_in_bounds; [done | apply mount_in_bounds]).
  split; [done |].
  destruct (rows_of_selection tl (sessions v) (selectedSessions v) Hv)
    as (rows & Hrows & Hlen & Hspec).
  assert (length (selectedSessions v) ≤ 2)%nat as Hsel.
  { unfold v, mount.
    change (apply_all (loadSessions stored initial) os)
      with (apply_all initial (Load stored :: os)).
    apply apply_all_selected_le. simpl. lia. }
  assert (comparisonData tl v
          = Some (filter (λ d, is_Some (row_avg d)) rows)) as Hdata.
  { unfold comparisonData. by rewrite Hrows. }
  exists (filter (λ d, is_Some (row_avg d)) rows).
  split; [done |]. split; [| split].
  - unfold render. destruct (length (sessions v) =? 0)%nat eqn:Hempty; [| done].
    apply Nat.eqb_eq in Hempty. unfold in_bounds in Hv. rewrite Hempty in Hv.
    destruct (selectedSessions v) as [|i sel]; [| apply Forall_cons in Hv; lia].
    destruct rows; [done | discriminate].
  - etrans; [apply length_filter |]. lia.
  - intros d. rewrite list_elem_of_filter, Hspec. split.
    + intros (Havg & i & s & Hi & Hs & ->).
      exists i, s. repeat split; try done. by apply has_average_iff.
    + intros (i & s & Hi & Hs & Hm & ->). split; [| eauto].
      by apply has_average_iff.
Qed.

Lemma comparisonData_defined_witness :
  let tl := (λ _ : Z, "10:00:00") in
  let sample := {| cpu_percent := 30; memory_mb := 400;
                   avg_chunk_time_ms := 12; rtf := 0.5 |} in
  let s1 := {| model := "vosk"; timestamp := 1; duration := 10;
               metrics := [sample]; transcript := "a" |} in
  let s2 := {| model := "whisper"; timestamp := 2; duration := 10;
               metrics := []; transcript := "" |} in
  let s3 := {| model := "vosk"; timestamp := 3; duration := 10;
               metrics := [sample; sample]; transcript := "b" |} in
  let v := apply_all (mount (Some [s1; s2; s3])) [Toggle 0; Clear false] in
  ∃ rows, comparisonData tl v = Some rows ∧ (length rows ≤ 2)%nat.
Proof.
  intros tl sample s1 s2 s3 v.
  destruct (comparisonData_defined tl (Some [s1; s2; s3]) [Toggle 0; Clear false])
    as (_ & rows & Hrows & _ & Hlen & _); [reflexivity |].
  by exists rows.
Defined.

End ComparisonRows.
